(** * krylov: the GMRES driver and the restart wrapper

    A shallow embedding of [src/krylov/gmres.py].

    - Scalars and vectors are numpy values.  They are kept abstract in the
      class [Numeric]: the driver only adds, scales, divides, compares and
      takes square roots, and every statement below holds for any such
      kernel.  The comparisons [>], [<=], [<] and [==] are separate boolean
      tests, as they are for floating-point numbers.
    - Applying [A], [M], [Ml] or [Mr] and calling
      [scipy.linalg.solve_triangular] are the observable effects of a run.
      They are recorded, in order, in the trace that every computation
      returns next to its value or its exception (monad [Run]).
    - [Arnoldi], [givens], [Identity] and [Product] are imported by
      [gmres.py] from sibling modules.  [Identity] and [Product] are modelled
      from the specification; the Arnoldi engine and [givens] are taken as
      an interface ([Collaborators]) with the laws the specification gives,
      and instantiated by a Gram-Schmidt engine for the concrete runs. *)

From Stdlib Require Import String.
From Stdlib Require Import List Arith Lia Bool ZArith QArith Qabs Qreduction.
Import ListNotations.
Close Scope Q_scope.

Set Implicit Arguments.

(** ** The numeric kernel (numpy / scipy) *)

Class Numeric : Type := {
  scalar : Type;
  vec : Type;
  (** the literal [0.0] *)
  zero : scalar;
  sadd : scalar -> scalar -> scalar;
  smul : scalar -> scalar -> scalar;
  sdiv : scalar -> scalar -> scalar;
  (** [numpy.sqrt] and [abs] *)
  ssqrt : scalar -> scalar;
  sabs : scalar -> scalar;
  (** [==], [>], [<=], [<] *)
  seqb : scalar -> scalar -> bool;
  sgtb : scalar -> scalar -> bool;
  sleb : scalar -> scalar -> bool;
  sltb : scalar -> scalar -> bool;
  (** [v.shape[0]] *)
  vlen : vec -> nat;
  (** [numpy.zeros_like] *)
  zeros_like : vec -> vec;
  vadd : vec -> vec -> vec;
  vsub : vec -> vec -> vec;
  (** [c * v] and [v / c] *)
  vscale : scalar -> vec -> vec;
  vdiv : vec -> scalar -> vec;
  (** [numpy.Inf] *)
  infinity : scalar;
  (** [scipy.linalg.solve_triangular] *)
  solve_triangular : list (list scalar) -> list scalar -> list scalar;
  (** the one order law used below: [a > b] and [a < b] never both hold *)
  sgtb_sltb : forall a b, sgtb a b = true -> sltb a b = false
}.

(** ** Exceptions, observable events and the [Run] monad *)

(** What a run does to the outside: one entry per application of an
    operator and per triangular solve, in the order they happen. *)
Inductive event : Type :=
| ApplyA
| ApplyM
| ApplyMl
| ApplyMr
| SolveTriangular.

Definition event_eqb (e1 e2 : event) : bool :=
  match e1, e2 with
  | ApplyA, ApplyA | ApplyM, ApplyM | ApplyMl, ApplyMl
  | ApplyMr, ApplyMr | SolveTriangular, SolveTriangular => true
  | _, _ => false
  end.

Definition trace : Type := list event.

(** Number of occurrences of [e] in a trace. *)
Definition count (e : event) (t : trace) : nat :=
  length (filter (event_eqb e) t).

Section WithNumeric.
Context {NK : Numeric}.

(** The exceptions of the module.  [ConvergenceError] is built at
    gmres.py:244 from a single formatted message, whose two interpolated
    values are kept here; it receives nothing else.  [ArnoldiError] stands
    for whatever the Arnoldi engine raises.  [LoopBudget] is not a Python
    exception: it marks a loop of the model that ran out of passes, and is
    shown never to be raised. *)
Inductive error : Type :=
| AssertionError
| IndexError
| ConvergenceError (msg_maxiter : nat) (msg_residual : scalar)
| ArnoldiError (msg : string)
| LoopBudget.

Inductive outcome (X : Type) : Type :=
| Ok (x : X)
| Raise (e : error).
Arguments Ok {X} x.
Arguments Raise {X} e.

(** A computation returns a value or raises, and emits the events it
    caused.  Nothing can read the events emitted so far. *)
Definition Run (X : Type) : Type := (outcome X * trace)%type.

Definition ret {X} (x : X) : Run X := (Ok x, []).

Definition bind {X Y} (c : Run X) (k : X -> Run Y) : Run Y :=
  match c with
  | (Ok x, t) => let (r, t') := k x in (r, t ++ t')
  | (Raise e, t) => (Raise e, t)
  end.

Definition raise {X} (e : error) : Run X := (Raise e, []).

Definition emit (e : event) : Run unit := (Ok tt, [e]).

Definition py_assert (c : bool) : Run unit :=
  if c then ret tt else raise AssertionError.

End WithNumeric.

Arguments Ok {NK X} x.
Arguments Raise {NK X} e.

Declare Scope run_scope.
Delimit Scope run_scope with run.
Notation "x <- c ;; k" := (bind c (fun x => k))
  (at level 100, c at next level, right associativity) : run_scope.
Notation "' p <- c ;; k" := (bind c (fun x => match x with p => k end))
  (at level 100, p pattern, c at next level, right associativity) : run_scope.
Notation "c ;; k" := (bind c (fun _ => k))
  (at level 100, right associativity) : run_scope.
Open Scope run_scope.

(** ** Operators *)

Section Operators.
Context {NK : Numeric}.

(** A preconditioner argument: Python's [None], the [Identity()] object of
    [_helpers], or an operator applied with [@]. *)
Inductive operator : Type :=
| NoOperator
| Identity
| Operator (f : vec -> vec).

(** Modelled from the spec: [Identity.__matmul__] of [krylov/_helpers.py],
    which is not among the sources.  "Identity is a distinguished no-op
    variant": applying it returns its argument and applies nothing.  An
    [Operator] is applied, and the application is recorded under [tag]. *)
Definition op_value (op : operator) (v : vec) : vec :=
  match op with
  | Operator f => f v
  | _ => v
  end.

(** Modelled from the spec: what applying [op] records, nothing for the
    identity ("so composition and cost accounting can skip it"). *)
Definition op_events (tag : event) (op : operator) : trace :=
  match op with
  | Operator _ => [tag]
  | _ => []
  end.

(** [op @ v] *)
Definition matmul (tag : event) (op : operator) (v : vec) : Run vec :=
  (Ok (op_value op v), op_events tag op).

(** [v if op is None else op @ v] *)
Definition apply_unless_none (tag : event) (op : operator) (v : vec) : Run vec :=
  match op with
  | NoOperator => ret v
  | _ => matmul tag op v
  end.

(** An operator object as the Arnoldi engine receives it: applying it gives
    a vector and the applications this took. *)
Definition applicable : Type := vec -> vec * trace.

(** Modelled from the spec: [Product] of [krylov/_helpers.py], which is not
    among the sources.  "A single apply operation equal to applying each
    non-identity operator in sequence, rightmost first."  A missing
    operator is skipped like the identity. *)
Fixpoint Product (ops : list (event * operator)) : applicable :=
  fun v =>
    match ops with
    | [] => (v, [])
    | (tag, op) :: rest =>
        let (w, t) := Product rest v in
        (op_value op w, t ++ op_events tag op)
    end.

(** [op @ v] for an operator object *)
Definition call (op : applicable) (v : vec) : Run vec :=
  (Ok (fst (op v)), snd (op v)).

End Operators.

(** ** Small arrays: the Givens rotations, [R] and [y] *)

Section Arrays.
Context {NK : Numeric}.

(** A 2x2 matrix, by rows. *)
Definition mat2 : Type := (scalar * scalar) * (scalar * scalar).

(** [g @ p] for a 2x2 matrix and a 2-vector. *)
Definition rot (g : mat2) (p : scalar * scalar) : scalar * scalar :=
  let '((g00, g01), (g10, g11)) := g in
  let '(p0, p1) := p in
  (sadd (smul g00 p0) (smul g01 p1), sadd (smul g10 p0) (smul g11 p1)).

(** [l[i] = x] for an index inside the array; nothing happens outside
    (every use below is guarded by the bound check of the column index). *)
Fixpoint list_set {X} (l : list X) (i : nat) (x : X) : list X :=
  match l, i with
  | [], _ => []
  | _ :: r, 0 => x :: r
  | h :: r, S j => h :: list_set r j x
  end.

Definition matrix : Type := list (list scalar).

Definition mat_get (m : matrix) (i j : nat) : scalar :=
  nth j (nth i m []) zero.

Definition mat_set (m : matrix) (i j : nat) (x : scalar) : matrix :=
  list_set m i (list_set (nth i m []) j x).

(** [numpy.zeros([rows, cols])] and [numpy.zeros(n)] *)
Definition zeros2 (rows cols : nat) : matrix := repeat (repeat zero cols) rows.
Definition zeros1 (n : nat) : list scalar := repeat zero n.

(** [R[:n, k] = H[:n, k]] *)
Definition copy_column (H : nat -> nat -> scalar) (n k : nat) (R : matrix) : matrix :=
  fold_left (fun m i => mat_set m i k (H i k)) (seq 0 n) R.

(** [R[i:i+2, k] = g @ R[i:i+2, k]] *)
Definition rotate_rows (g : mat2) (i k : nat) (R : matrix) : matrix :=
  let '(r0, r1) := rot g (mat_get R i k, mat_get R (i + 1) k) in
  mat_set (mat_set R i k r0) (i + 1) k r1.

(** [y[k:k+2] = g @ y[k:k+2]] *)
Definition rotate_pair (g : mat2) (k : nat) (y : list scalar) : list scalar :=
  let '(y0, y1) := rot g (nth k y zero, nth (k + 1) y zero) in
  list_set (list_set y k y0) (k + 1) y1.

(** [R[:k, :k]] *)
Definition leading_block (k : nat) (R : matrix) : matrix :=
  map (firstn k) (firstn k R).

(** [l[i]] on a Python list *)
Definition py_index {X} (l : list X) (i : nat) : Run X :=
  match nth_error l i with
  | Some x => ret x
  | None => raise IndexError
  end.

(** [for x in xs: s = f(x, s)] *)
Fixpoint for_each {X S} (xs : list X) (f : X -> S -> Run S) (s : S) : Run S :=
  match xs with
  | [] => ret s
  | x :: r => s' <- f x s ;; for_each r f s'
  end.

(** [sum(terms)] over vectors: Python starts from the integer [0], and
    [0 + v] is [v]; the empty sum, the integer [0] itself, adds nothing to a
    vector and is kept as a zero vector shaped like [like]. *)
Definition py_sum (like : vec) (terms : list vec) : vec :=
  match terms with
  | [] => zeros_like like
  | v :: r => fold_left vadd r v
  end.

End Arrays.

(** ** The sibling modules [krylov.arnoldi] and [krylov.givens] *)

(** The interface the driver uses.  An [Arnoldi] object is created from the
    operator, the start vector, the iteration limit, the orthogonalisation
    mode, [M], the preconditioned start vector with its norm and the inner
    product; it is advanced by [advance], read through [iter], [maxiter],
    [invariant], [V] and [H], and exported by [get].  Creating or advancing
    it may raise and may apply operators.  The laws are what the
    specification states of the engine: it is created fresh and with the
    limit it was given, without applying an operator ("the provided
    pre-transformed vector and its norm must be supplied rather than
    recomputed"); every advance "increments the iteration count"; and what
    it raises is an error of its own. *)
Class Collaborators {NK : Numeric} : Type := {
  givens : scalar * scalar -> mat2;
  arnoldi : Type;
  Arnoldi : applicable -> vec -> nat -> string -> operator ->
            vec -> scalar -> (vec -> vec -> scalar) -> Run arnoldi;
  advance : arnoldi -> Run arnoldi;
  arn_iter : arnoldi -> nat;
  arn_maxiter : arnoldi -> nat;
  arn_invariant : arnoldi -> bool;
  arn_V : arnoldi -> list vec;
  arn_H : arnoldi -> nat -> nat -> scalar;
  arn_get : arnoldi -> list vec * matrix * option (list vec);
  Arnoldi_fresh : forall op v n o m mv nrm ip s t,
    Arnoldi op v n o m mv nrm ip = (Ok s, t) ->
    arn_iter s = 0 /\ arn_maxiter s = n /\ t = [];
  advance_iter : forall s s' t,
    advance s = (Ok s', t) ->
    arn_iter s' = S (arn_iter s) /\ arn_maxiter s' = arn_maxiter s;
  Arnoldi_raises : forall op v n o m mv nrm ip e t,
    Arnoldi op v n o m mv nrm ip = (Raise e, t) ->
    exists msg, e = ArnoldiError msg;
  advance_raises : forall s e t,
    advance s = (Raise e, t) -> exists msg, e = ArnoldiError msg
}.

(** ** The driver: [gmres] *)

Section Driver.
Context {NK : Numeric} {KC : Collaborators}.

(** The operator [A]: its declared [shape] and its application [A @ z]. *)
Record linear_operator : Type := {
  shape : list nat;
  matvec : vec -> vec
}.

(** The arguments of [gmres].  [U] is accepted and never read, and is left
    out.  [maxiter] and [x0] default to [None]. *)
Record Args : Type := {
  arg_A : linear_operator;
  arg_b : vec;
  arg_M : operator;
  arg_Ml : operator;
  arg_Mr : operator;
  arg_inner : vec -> vec -> scalar;
  arg_exact_solution : option vec;
  arg_ortho : string;
  arg_x0 : option vec;
  arg_tol : scalar;
  arg_maxiter : option nat;
  arg_use_explicit_residual : bool;
  arg_store_arnoldi : bool
}.

(** The dictionary [operations]; [/] is Python's true division, so
    ["inner"] and ["axpy"] are not integers. *)
Record Operations : Type := {
  op_A : nat;
  op_M : nat;
  op_Ml : nat;
  op_Mr : nat;
  op_inner : Q;
  op_axpy : Q
}.

(** [Info = namedtuple("KrylovInfo", ["resnorms", "operations"])] *)
Record KrylovInfo : Type := {
  resnorms : list scalar;
  operations : Operations
}.

(** The local variables of [gmres] that change after the set-up. *)
Record locals : Type := {
  st_x0 : vec;
  st_arnoldi : arnoldi;
  st_iter : nat;
  st_resnorms : list scalar;
  st_errnorms : list scalar;
  st_G : list mat2;
  st_R : matrix;
  st_y : list scalar;
  st_V : list vec;
  st_xk : option vec
}.

(** [l[-1]]; the history is seeded before the loop and only grows
    ([inv_resnorms] below), so the default is never returned. *)
Definition last_entry (l : list scalar) : scalar := last l zero.

(** gmres.py:63-72.  [V] is the local of [gmres], bound in the loop. *)
Definition _get_xk (a : Args) (l : locals) (y : option (list scalar)) : Run vec :=
  match y with
  | None => ret (st_x0 l)
  | Some y =>
      let k := arn_iter (st_arnoldi l) in
      if 0 <? k then
        emit SolveTriangular ;;
        let yy := solve_triangular (leading_block k (st_R l)) y in
        let yk :=
          py_sum (st_x0 l)
            (map (fun cv => vscale (fst cv) (snd cv))
                 (combine yy (removelast (st_V l)))) in
        Mr_yk <- apply_unless_none ApplyMr (arg_Mr a) yk ;;
        ret (vadd (st_x0 l) Mr_yk)
      else ret (st_x0 l)
  end.

(** gmres.py:74-89 *)
Definition get_residual (a : Args) (z : vec) : Run (vec * vec) :=
  emit ApplyA ;;
  let r := vsub (arg_b a) (matvec (arg_A a) z) in
  Mlr <- apply_unless_none ApplyMl (arg_Ml a) r ;;
  MMlr <- apply_unless_none ApplyM (arg_M a) Mlr ;;
  ret (MMlr, Mlr).

(** gmres.py:103-105 *)
Definition get_residual_and_norm (a : Args) (z : vec) : Run (vec * vec * scalar) :=
  ' (MMlr, Mlr) <- get_residual a z ;;
  ret (MMlr, Mlr, ssqrt (arg_inner a Mlr MMlr)).

(** gmres.py:91-101 *)
Definition get_residual_norm (a : Args) (z : vec) : Run scalar :=
  ' (_, _, n) <- get_residual_and_norm a z ;;
  ret n.

(** [xk = _get_xk(yk) if xk is None else xk] *)
Definition ensure_xk (a : Args) (l : locals) (xk : option vec) (yk : list scalar)
  : Run vec :=
  match xk with
  | None => _get_xk a l (Some yk)
  | Some x => ret x
  end.

(** [numpy.sqrt(inner(err, err))] for [err = exact_solution - x] *)
Definition error_norm (a : Args) (e x : vec) : scalar :=
  ssqrt (arg_inner a (vsub e x) (vsub e x)).

(** The loop test, gmres.py:178-180. *)
Definition loop_test (a : Args) (l : locals) : bool :=
  sgtb (last_entry (st_resnorms l)) (arg_tol a)
  && (arn_iter (st_arnoldi l) <? arn_maxiter (st_arnoldi l))
  && negb (arn_invariant (st_arnoldi l)).

(** The body of [for i in range(k)], gmres.py:189-190:
    [R[i:i+2, k] = G[i] @ R[i:i+2, k]]. *)
Definition previous_rotation (G : list mat2) (k : nat) (i : nat) (R : matrix)
  : Run matrix :=
  g <- py_index G i ;;
  ret (rotate_rows g i k R).

(** First half of the loop body, gmres.py:181-195: advance the engine, copy
    the new Hessenberg column into [R], apply the previous rotations, then
    compute and apply the new one.  [R] has [maxiter] columns, so the column
    index [k] is checked against it. *)
Definition advance_and_rotate (maxiter : nat) (l : locals) : Run locals :=
  let k := arn_iter (st_arnoldi l) in
  arn <- advance (st_arnoldi l) ;;
  let V := arn_V arn in
  (if k <? maxiter then ret tt else raise IndexError) ;;
  let R := copy_column (arn_H arn) (k + 2) k (st_R l) in
  R <- for_each (seq 0 k) (previous_rotation (st_G l) k) R ;;
  let G := st_G l ++ [givens (mat_get R k k, mat_get R (k + 1) k)] in
  Gk <- py_index G k ;;
  let R := rotate_rows Gk k k R in
  let y := rotate_pair Gk k (st_y l) in
  ret {| st_x0 := st_x0 l; st_arnoldi := arn; st_iter := k;
         st_resnorms := st_resnorms l; st_errnorms := st_errnorms l;
         st_G := G; st_R := R; st_y := y; st_V := V; st_xk := st_xk l |}.

(** [resnorms[-1] = v] *)
Definition set_last (l : list scalar) (v : scalar) : list scalar :=
  removelast l ++ [v].

(** Second half of the loop body, gmres.py:197-247: the residual of the
    step, its entry in the history, the confirmation by the explicit
    residual, and the failure in the last iteration. *)
Definition update_residual (a : Args) (maxiter : nat) (MMlb_norm : scalar)
    (l : locals) : Run locals :=
  let k := st_iter l in
  let yk := firstn (k + 1) (st_y l) in
  let resnorm := sabs (nth (k + 1) (st_y l) zero) in
  let xk : option vec := None in
  ' (xk, errnorms) <-
    match arg_exact_solution a with
    | Some e =>
        x <- ensure_xk a l xk yk ;;
        ret (Some x, st_errnorms l ++ [error_norm a e x])
    | None => ret (xk, st_errnorms l)
    end ;;
  ' (xk, resnorm) <-
    (if arg_use_explicit_residual a then
       x <- ensure_xk a l xk yk ;;
       rkn <- get_residual_norm a x ;;
       ret (Some x, rkn)
     else ret (xk, resnorm)) ;;
  let resnorms := st_resnorms l ++ [sdiv resnorm MMlb_norm] in
  let finish (xk : option vec) (resnorms : list scalar) : locals :=
    {| st_x0 := st_x0 l; st_arnoldi := st_arnoldi l; st_iter := k;
       st_resnorms := resnorms; st_errnorms := errnorms;
       st_G := st_G l; st_R := st_R l; st_y := st_y l; st_V := st_V l;
       st_xk := xk |} in
  if sleb (sdiv resnorm MMlb_norm) (arg_tol a) then
    if negb (arg_use_explicit_residual a) then
      x <- ensure_xk a l xk yk ;;
      rkn <- get_residual_norm a x ;;
      ret (finish (Some x) (set_last resnorms (sdiv rkn MMlb_norm)))
    else ret (finish xk resnorms)
  else if k + 1 =? maxiter then
    let _ := if arg_store_arnoldi a then Some (arn_get (st_arnoldi l)) else None in
    raise (ConvergenceError maxiter (last_entry resnorms))
  else ret (finish xk resnorms).

(** The loop body. *)
Definition loop_body (a : Args) (maxiter : nat) (MMlb_norm : scalar)
    (l : locals) : Run locals :=
  l' <- advance_and_rotate maxiter l ;;
  update_residual a maxiter MMlb_norm l'.

(** The [while] loop, gmres.py:178-247.  Every pass advances the engine, so
    [budget] passes are enough when the engine is [budget] steps from its
    limit (lemma [gmres_loop_budget]); [LoopBudget] is not a Python
    exception and is never raised by [gmres]. *)
Fixpoint gmres_loop (a : Args) (maxiter : nat) (MMlb_norm : scalar)
    (budget : nat) (l : locals) : Run locals :=
  if loop_test a l then
    match budget with
    | 0 => raise LoopBudget
    | S n =>
        l' <- loop_body a maxiter MMlb_norm l ;;
        gmres_loop a maxiter MMlb_norm n l'
    end
  else ret l.

(** gmres.py:260-267 *)
Definition count_operations (iter : nat) : Operations :=
  let half := (Z.of_nat (iter * (iter + 1)) # 2)%Q in
  {| op_A := 1 + iter;
     op_M := 2 + iter;
     op_Ml := 2 + iter;
     op_Mr := 1 + iter;
     op_inner := Qred (inject_Z (Z.of_nat (2 + iter)) + half);
     op_axpy := Qred (inject_Z (Z.of_nat (4 + 2 * iter)) + half) |}.

(** gmres.py:107-109 *)
Definition check_shapes (a : Args) : Run unit :=
  let s := shape (arg_A a) in
  py_assert (length s =? 2) ;;
  py_assert (nth 0 s 0 =? nth 1 s 0) ;;
  py_assert (nth 1 s 0 =? vlen (arg_b a)).

(** [maxiter = N if maxiter is None else maxiter], with [N = A.shape[0]] *)
Definition sanitized_maxiter (a : Args) : nat :=
  match arg_maxiter a with
  | None => nth 0 (shape (arg_A a)) 0
  | Some m => m
  end.

(** gmres.py:121-122 *)
Definition initial_guess (a : Args) : vec :=
  match arg_x0 a with
  | None => zeros_like (arg_b a)
  | Some x => x
  end.

(** Everything after the loop, gmres.py:249-271. *)
Definition finish_gmres (a : Args) (l : locals) : Run (option vec * KrylovInfo) :=
  xk <- ensure_xk a l (st_xk l) (firstn (arn_iter (st_arnoldi l)) (st_y l)) ;;
  let _ := if arg_store_arnoldi a then Some (arn_get (st_arnoldi l)) else None in
  let operations := count_operations (st_iter l) in
  ret (if sltb (last_entry (st_resnorms l)) (arg_tol a) then Some xk else None,
       {| resnorms := st_resnorms l; operations := operations |}).

(** [MlAMr = Product(Ml, A, Mr)], gmres.py:132 *)
Definition MlAMr (a : Args) : applicable :=
  Product [(ApplyMl, arg_Ml a); (ApplyA, Operator (matvec (arg_A a)));
           (ApplyMr, arg_Mr a)].

(** Everything before the loop, gmres.py:111-175: the initial residual, the
    norm of the preconditioned right-hand side, the seed of the history and
    the engine.  Returns the norm and the locals at loop entry. *)
Definition start_gmres (a : Args) : Run (scalar * locals) :=
  let maxiter := sanitized_maxiter a in
  let x0 := initial_guess a in
  ' (MMlr0, Mlr0, MMlr0_norm) <- get_residual_and_norm a x0 ;;
  Mlb <- apply_unless_none ApplyMl (arg_Ml a) (arg_b a) ;;
  MMlb <- apply_unless_none ApplyM (arg_M a) Mlb ;;
  let MMlb_norm := ssqrt (arg_inner a Mlb MMlb) in
  let '(xk, x0, resnorms) :=
    if seqb MMlb_norm zero
    then (Some (zeros_like (arg_b a)), zeros_like (arg_b a), [zero])
    else (None, x0, [sdiv MMlr0_norm MMlb_norm]) in
  let errnorms :=
    match arg_exact_solution a with
    | Some e => [error_norm a e x0]
    | None => []
    end in
  arn <- Arnoldi (MlAMr a) Mlr0 maxiter (arg_ortho a) (arg_M a) MMlr0 MMlr0_norm
           (arg_inner a) ;;
  let R := zeros2 (maxiter + 1) maxiter in
  let y := list_set (zeros1 (maxiter + 1)) 0 MMlr0_norm in
  ret (MMlb_norm,
       {| st_x0 := x0; st_arnoldi := arn; st_iter := 0;
          st_resnorms := resnorms; st_errnorms := errnorms;
          st_G := []; st_R := R; st_y := y; st_V := []; st_xk := xk |}).

(** [gmres] up to the exit of the loop, gmres.py:107-247. *)
Definition iterate_gmres (a : Args) : Run locals :=
  check_shapes a ;;
  ' (MMlb_norm, l) <- start_gmres a ;;
  gmres_loop a (sanitized_maxiter a) MMlb_norm (sanitized_maxiter a) l.

(** [gmres], gmres.py:13-271. *)
Definition gmres (a : Args) : Run (option vec * KrylovInfo) :=
  l <- iterate_gmres a ;;
  finish_gmres a l.

(** *** What the driver computes, without the trace

    The values and the events of the calls above, written as plain
    functions; the lemmas [get_residual_and_norm_run], [_get_xk_run] and
    [start_gmres_run] show that the code computes exactly these. *)

(** [(MMlr, Mlr, norm)] for [r = b - A z] *)
Definition residual (a : Args) (z : vec) : vec * vec * scalar :=
  let r := vsub (arg_b a) (matvec (arg_A a) z) in
  let Mlr := op_value (arg_Ml a) r in
  let MMlr := op_value (arg_M a) Mlr in
  (MMlr, Mlr, ssqrt (arg_inner a Mlr MMlr)).

Definition residual_events (a : Args) : trace :=
  ApplyA :: op_events ApplyMl (arg_Ml a) ++ op_events ApplyM (arg_M a).

(** The norm of the preconditioned right-hand side, [MMlb_norm]. *)
Definition rhs_norm (a : Args) : scalar :=
  let Mlb := op_value (arg_Ml a) (arg_b a) in
  ssqrt (arg_inner a Mlb (op_value (arg_M a) Mlb)).

(** The first entry of the history when the right-hand side is not zero. *)
Definition initial_relres (a : Args) : scalar :=
  sdiv (snd (residual a (initial_guess a))) (rhs_norm a).

(** The events of the set-up, up to the creation of the engine. *)
Definition start_events (a : Args) : trace :=
  residual_events a ++ op_events ApplyMl (arg_Ml a) ++ op_events ApplyM (arg_M a).

(** The call that creates the engine, gmres.py:158-167. *)
Definition new_engine (a : Args) : Run arnoldi :=
  let '(MMlr0, Mlr0, MMlr0_norm) := residual a (initial_guess a) in
  Arnoldi (MlAMr a) Mlr0 (sanitized_maxiter a) (arg_ortho a) (arg_M a)
    MMlr0 MMlr0_norm (arg_inner a).

(** The locals at loop entry, for the engine [arn]. *)
Definition entry_locals (a : Args) (arn : arnoldi) : locals :=
  let maxiter := sanitized_maxiter a in
  let zero_rhs := seqb (rhs_norm a) zero in
  let x0 := if zero_rhs then zeros_like (arg_b a) else initial_guess a in
  {| st_x0 := x0;
     st_arnoldi := arn;
     st_iter := 0;
     st_resnorms := if zero_rhs then [zero] else [initial_relres a];
     st_errnorms :=
       match arg_exact_solution a with
       | Some e => [error_norm a e x0]
       | None => []
       end;
     st_G := [];
     st_R := zeros2 (maxiter + 1) maxiter;
     st_y := list_set (zeros1 (maxiter + 1)) 0 (snd (residual a (initial_guess a)));
     st_V := [];
     st_xk := if zero_rhs then Some (zeros_like (arg_b a)) else None |}.

(** The vector [_get_xk(y)] returns: [x0] before the first step, and
    otherwise [x0 + Mr @ sum(c * v for c, v in zip(yy, V[:-1]))] with
    [yy] the solution of [R[:k, :k] yy = y]. *)
Definition reconstruct (a : Args) (l : locals) (y : list scalar) : vec :=
  let k := arn_iter (st_arnoldi l) in
  if 0 <? k then
    let yy := solve_triangular (leading_block k (st_R l)) y in
    vadd (st_x0 l)
      (op_value (arg_Mr a)
         (py_sum (st_x0 l)
            (map (fun cv => vscale (fst cv) (snd cv))
                 (combine yy (removelast (st_V l))))))
  else st_x0 l.

Definition reconstruct_events (a : Args) (l : locals) : trace :=
  if 0 <? arn_iter (st_arnoldi l)
  then SolveTriangular :: op_events ApplyMr (arg_Mr a)
  else [].

(** The solution the driver holds when the loop is left. *)
Definition solution_at_exit (a : Args) (l : locals) : vec :=
  reconstruct a l (firstn (arn_iter (st_arnoldi l)) (st_y l)).

(** "The operator is square and matches the right-hand-side dimension." *)
Definition shapes_match (a : Args) : bool :=
  match shape (arg_A a) with
  | [rows; cols] => (rows =? cols) && (cols =? vlen (arg_b a))
  | _ => false
  end.

(** What holds of the locals at every loop test: the engine keeps the limit
    it was given; there is one rotation per step made; the history is not
    empty; [iter] is the index of the last step; [V] is the basis of the
    engine once a step was made; a solution that is already held is the
    one [_get_xk] would return now; and [x0] is the initial guess, or the
    zero vector when the right-hand side is zero. *)
Record loop_invariant (a : Args) (l : locals) : Prop := {
  inv_maxiter : arn_maxiter (st_arnoldi l) = sanitized_maxiter a;
  inv_G : length (st_G l) = arn_iter (st_arnoldi l);
  inv_resnorms : st_resnorms l <> [];
  inv_iter : st_iter l = arn_iter (st_arnoldi l) - 1;
  inv_V : 1 <= arn_iter (st_arnoldi l) -> st_V l = arn_V (st_arnoldi l);
  inv_xk : forall x, st_xk l = Some x -> x = solution_at_exit a l;
  inv_x0 : st_x0 l = if seqb (rhs_norm a) zero
                     then zeros_like (arg_b a) else initial_guess a
}.

(** [xk = _get_xk(yk) if xk is None else xk] returns a value, and the
    events of the reconstruction when it has to make one. *)
Definition ensured (a : Args) (l : locals) (xk : option vec) (yk : list scalar)
  : vec * trace :=
  match xk with
  | None => (reconstruct a l yk, reconstruct_events a l)
  | Some x => (x, [])
  end.

(** A pass fails only with an error of the engine or with the
    [ConvergenceError] of the last iteration. *)
Definition driver_error (m : nat) (e : error) : Prop :=
  (exists msg, e = ArnoldiError msg) \/ (exists r, e = ConvergenceError m r).

End Driver.

(** ** The restart wrapper: [_RestartedSolver] *)

Section Restart.
Context {NK : Numeric}.

(** What the wrapper reads of a solver object. *)
Record solver : Type := {
  sol_xk : option vec;
  sol_tol : scalar;
  sol_resnorms : list scalar;
  sol_errnorms : list scalar
}.

(** The keyword arguments passed on to the solver: the entry ["x0"], which
    the wrapper overwrites, and all the others, which it does not read. *)
Record kwargs (Opts : Type) : Type := {
  kw_x0 : option vec;
  kw_other : Opts
}.

(** A call [Solver(linear_system, **kwargs)] returns a solver object, raises
    [utils.ConvergenceError] carrying one as [e.solver], or raises something
    else. *)
Inductive solver_result (Exn : Type) : Type :=
| Solved (sol : solver)
| NotConverged (sol : solver)
| Failed (e : Exn).
Arguments Solved {Exn} sol.
Arguments NotConverged {Exn} sol.
Arguments Failed {Exn} e.

(** The attributes of the wrapper object.  [self_errnorms] exists only when
    an exact solution is tracked.  [self_runs] is not in the source: it
    lists the solver objects of the runs made so far, oldest first, so that
    statements can refer to them. *)
Record restarted : Type := {
  self_xk : option vec;
  self_resnorms : list scalar;
  self_errnorms : option (list scalar);
  self_runs : list solver
}.

(** How the constructor can fail: the final [utils.ConvergenceError], which
    carries the wrapper itself; an exception of the solver; [l[-1]] or
    [del l[-1]] on an empty list; a comparison with [tol = None]; and the
    pass budget of the model. *)
Inductive restart_error (Exn : Type) : Type :=
| NoConvergence (max_restarts : nat) (self : restarted)
| SolverRaised (e : Exn)
| EmptyList
| CompareNone
| RestartBudget.
Arguments NoConvergence {Exn} max_restarts self.
Arguments SolverRaised {Exn} e.
Arguments EmptyList {Exn}.
Arguments CompareNone {Exn}.
Arguments RestartBudget {Exn}.

(** *** Histories

    [accumulated hs] is what the loop builds from the histories [hs] of the
    runs, oldest first: it starts from the placeholder and, for every run,
    deletes the last entry held and appends the run's history. *)
Definition accumulated (hs : list (list scalar)) : list scalar :=
  fold_left (fun acc h => removelast acc ++ h) hs [infinity].

(** Every run's history without its final entry, and the last run's whole. *)
Definition kept_history (hs : list (list scalar)) : list scalar :=
  concat (map (@removelast scalar) (removelast hs)) ++ last hs [].

(** "The first run's history followed by each subsequent run's history
    without its duplicated leading entry." *)
Definition claimed_history (hs : list (list scalar)) : list scalar :=
  match hs with
  | [] => []
  | h :: r => h ++ concat (map (@tl scalar) r)
  end.

(** No run has an empty history. *)
Definition nonempty (h : list scalar) : Prop := h <> [].


(** Every later run starts with the entry the run before it ended with. *)
Fixpoint chained (hs : list (list scalar)) : Prop :=
  match hs with
  | [] => True
  | h :: r =>
      match r with
      | [] => True
      | h' :: _ => exists x p q, h = p ++ [x] /\ h' = x :: q
      end /\ chained r
  end.

Section Wrapper.
Variables (LinearSystem Opts Exn : Type).
Variable exact_solution : LinearSystem -> option vec.
Variable Solver : LinearSystem -> kwargs Opts -> solver_result Exn.
Variable linear_system : LinearSystem.
Variable max_restarts : nat.

(** The variables of the constructor that change in the loop. *)
Record restart_state : Type := {
  rs_self : restarted;
  rs_kwargs : kwargs Opts;
  rs_tol : option scalar;
  rs_restart : nat
}.

(** [l[-1]] *)
Definition py_last (l : list scalar) : restart_error Exn + scalar :=
  match rev l with
  | [] => inl EmptyList
  | x :: _ => inr x
  end.

(** [del l[-1]; l += more] *)
Definition del_last_extend (l more : list scalar) : restart_error Exn + list scalar :=
  match l with
  | [] => inl EmptyList
  | _ => inr (removelast l ++ more)
  end.

(** [self.resnorms[-1] > tol] *)
Definition above_tol (self : restarted) (tol : option scalar)
  : restart_error Exn + bool :=
  match py_last (self_resnorms self) with
  | inl e => inl e
  | inr r =>
      match tol with
      | None => inl CompareNone
      | Some tol => inr (sgtb r tol)
      end
  end.

(** gmres.py:297 *)
Definition restart_test (st : restart_state) : restart_error Exn + bool :=
  if rs_restart st =? 0 then inr true
  else
    match above_tol (rs_self st) (rs_tol st) with
    | inl e => inl e
    | inr c => inr (c && (rs_restart st <=? max_restarts))
    end.

(** gmres.py:309-320: take over the solution, the tolerance and the
    histories of the run that produced [sol]. *)
Definition absorb_run (st : restart_state) (kw : kwargs Opts) (sol : solver)
  : restart_error Exn + restart_state :=
  let self := rs_self st in
  match del_last_extend (self_resnorms self) (sol_resnorms sol) with
  | inl e => inl e
  | inr resnorms =>
      let errnorms :=
        match exact_solution linear_system with
        | Some _ =>
            match self_errnorms self with
            | Some errs =>
                match del_last_extend errs (sol_errnorms sol) with
                | inl e => inl e
                | inr errs' => inr (Some errs')
                end
            | None => inr None
            end
        | None => inr (self_errnorms self)
        end in
      match errnorms with
      | inl e => inl e
      | inr errnorms =>
          inr {| rs_self := {| self_xk := sol_xk sol;
                               self_resnorms := resnorms;
                               self_errnorms := errnorms;
                               self_runs := self_runs self ++ [sol] |};
                 rs_kwargs := kw;
                 rs_tol := Some (sol_tol sol);
                 rs_restart := rs_restart st + 1 |}
      end
  end.

(** One pass of the loop, gmres.py:298-320. *)
Definition restart_pass (st : restart_state) : restart_error Exn + restart_state :=
  let kw :=
    match self_xk (rs_self st) with
    | Some x => {| kw_x0 := Some x; kw_other := kw_other (rs_kwargs st) |}
    | None => rs_kwargs st
    end in
  match Solver linear_system kw with
  | Solved sol => absorb_run st kw sol
  | NotConverged sol => absorb_run st kw sol
  | Failed e => inl (SolverRaised e)
  end.

(** The [while] loop, gmres.py:297-320.  [max_restarts + 1] passes are
    enough (lemma [restart_loop_budget]). *)
Fixpoint restart_loop (budget : nat) (st : restart_state)
  : restart_error Exn + restart_state :=
  match restart_test st with
  | inl e => inl e
  | inr false => inr st
  | inr true =>
      match budget with
      | 0 => inl RestartBudget
      | S n =>
          match restart_pass st with
          | inl e => inl e
          | inr st' => restart_loop n st'
          end
      end
  end.

(** [_RestartedSolver.__init__], gmres.py:277-325; returns [self]. *)
Definition _RestartedSolver (kw : kwargs Opts) : restart_error Exn + restarted :=
  let self :=
    {| self_xk := None;
       self_resnorms := [infinity];
       self_errnorms :=
         match exact_solution linear_system with
         | Some _ => Some [infinity]
         | None => None
         end;
       self_runs := [] |} in
  match restart_loop (max_restarts + 1)
          {| rs_self := self; rs_kwargs := kw; rs_tol := None; rs_restart := 0 |} with
  | inl e => inl e
  | inr st =>
      match above_tol (rs_self st) (rs_tol st) with
      | inl e => inl e
      | inr true => inl (NoConvergence max_restarts (rs_self st))
      | inr false => inr (rs_self st)
      end
  end.

(** What holds of the wrapper at every loop test. *)
Record restart_invariant (st : restart_state) : Prop := {
  rinv_resnorms :
    self_resnorms (rs_self st) =
    accumulated (map sol_resnorms (self_runs (rs_self st)));
  rinv_errnorms :
    self_errnorms (rs_self st) =
    match exact_solution linear_system with
    | Some _ => Some (accumulated (map sol_errnorms (self_runs (rs_self st))))
    | None => None
    end;
  rinv_runs : length (self_runs (rs_self st)) = rs_restart st
}.

(** Inside the loop, only an empty list, a missing tolerance or the solver
    make the constructor fail. *)
Definition pass_error (e : restart_error Exn) : Prop :=
  match e with
  | EmptyList | CompareNone | SolverRaised _ => True
  | _ => False
  end.

End Wrapper.

End Restart.

Arguments Solved {NK Exn} sol.
Arguments NotConverged {NK Exn} sol.
Arguments Failed {NK Exn} e.
Arguments NoConvergence {NK Exn} max_restarts self.
Arguments SolverRaised {NK Exn} e.
Arguments EmptyList {NK Exn}.
Arguments CompareNone {NK Exn}.
Arguments RestartBudget {NK Exn}.

(** ** A Gram-Schmidt Arnoldi engine *)

Section GramSchmidt.
Context {NK : Numeric}.

(** Modelled from the spec: the class [Arnoldi] of [krylov/arnoldi.py], which
    is not among the sources, in its two Gram-Schmidt modes (["mgs"], a
    single pass, and ["dmgs"], "repeat the projection pass once more").  The
    Householder and Lanczos modes are not modelled: this engine refuses them
    when it is created.  [gs_P] "aliases V" when no left preconditioner is
    active; [gs_H] holds the columns of the Hessenberg matrix. *)
Record gs : Type := {
  gs_op : applicable;
  gs_M : operator;
  gs_inner : vec -> vec -> scalar;
  gs_passes : nat;
  gs_maxiter : nat;
  gs_iter : nat;
  gs_invariant : bool;
  gs_V : list vec;
  gs_P : list vec;
  gs_H : list (list scalar)
}.

(** Modelled from the spec: [Arnoldi.__init__].
    "initialize: normalize the start vector under the inner product (if M
    active, the provided pre-transformed vector and its norm must be
    supplied rather than recomputed); store as V[0] (and P[0] if M active).
    Fails if the start vector has zero norm." *)
Definition gs_new (op : applicable) (v : vec) (maxiter : nat) (ortho : string)
    (M : operator) (Mv : vec) (Mv_norm : scalar) (inner : vec -> vec -> scalar)
  : Run gs :=
  passes <- (if String.eqb ortho "mgs" then ret 1
             else if String.eqb ortho "dmgs" then ret 2
             else raise (ArnoldiError "unsupported orthogonalization")) ;;
  let '(v0, p0, norm) :=
    match M with
    | Operator _ => (Mv, v, Mv_norm)
    | _ => (v, v, ssqrt (inner v v))
    end in
  if seqb norm zero then raise (ArnoldiError "start vector has zero norm")
  else
    ret {| gs_op := op; gs_M := M; gs_inner := inner; gs_passes := passes;
           gs_maxiter := maxiter; gs_iter := 0; gs_invariant := false;
           gs_V := [vdiv v0 norm]; gs_P := [vdiv p0 norm]; gs_H := [] |}.

(** Modelled from the spec: one projection pass, "orthogonalize Mw against
    P[0..iter] while projecting components onto w using the same
    coefficients". *)
Fixpoint gs_pass (inner : vec -> vec -> scalar) (basis : list (vec * vec))
    (w Mw : vec) : list scalar * (vec * vec) :=
  match basis with
  | [] => ([], (w, Mw))
  | (p, v) :: rest =>
      let alpha := inner p Mw in
      let '(cs, r) :=
        gs_pass inner rest (vsub w (vscale alpha p)) (vsub Mw (vscale alpha v)) in
      (alpha :: cs, r)
  end.

(** Modelled from the spec: the coefficients of a repeated pass are added
    to those of the pass before. *)
Fixpoint add_coefficients (c d : list scalar) : list scalar :=
  match c, d with
  | x :: c', y :: d' => sadd x y :: add_coefficients c' d'
  | _, _ => c
  end.

(** Modelled from the spec: [n] projection passes, one for ["mgs"] and two
    for ["dmgs"]. *)
Fixpoint gs_passes_run (n : nat) (inner : vec -> vec -> scalar)
    (basis : list (vec * vec)) (cs : list scalar) (w Mw : vec)
  : list scalar * (vec * vec) :=
  match n with
  | 0 => (cs, (w, Mw))
  | S m =>
      let '(ds, (w', Mw')) := gs_pass inner basis w Mw in
      gs_passes_run m inner basis (add_coefficients ds cs) w' Mw'
  end.

(** Modelled from the spec: [Arnoldi.advance].
    "advance: compute w = operator.apply(V[iter]); if M active, compute
    Mw = M.apply(w) ...  After orthogonalization, the norm of the
    orthogonalized vector determines the new subdiagonal entry of H; if that
    norm is zero, mark invariant-detected and do not append a new basis
    vector.  Otherwise normalize and append to V (and P).  Increment
    iteration count."  Advancing an exhausted or invariant engine fails. *)
Definition gs_advance (s : gs) : Run gs :=
  if (gs_maxiter s <=? gs_iter s) || gs_invariant s
  then raise (ArnoldiError "engine driven past its terminal state")
  else
    match nth_error (gs_V s) (gs_iter s) with
    | None => raise (ArnoldiError "no basis vector")
    | Some vk =>
        w <- call (gs_op s) vk ;;
        Mw <- matmul ApplyM (gs_M s) w ;;
        let basis := combine (gs_P s) (gs_V s) in
        let '(cs, (w, Mw)) :=
          gs_passes_run (gs_passes s) (gs_inner s) basis
            (zeros1 (length basis)) w Mw in
        let h := ssqrt (gs_inner s w Mw) in
        let column := cs ++ [h] in
        if seqb h zero then
          ret {| gs_op := gs_op s; gs_M := gs_M s; gs_inner := gs_inner s;
                 gs_passes := gs_passes s; gs_maxiter := gs_maxiter s;
                 gs_iter := gs_iter s + 1; gs_invariant := true;
                 gs_V := gs_V s; gs_P := gs_P s;
                 gs_H := gs_H s ++ [column] |}
        else
          ret {| gs_op := gs_op s; gs_M := gs_M s; gs_inner := gs_inner s;
                 gs_passes := gs_passes s; gs_maxiter := gs_maxiter s;
                 gs_iter := gs_iter s + 1; gs_invariant := false;
                 gs_V := gs_V s ++ [vdiv Mw h]; gs_P := gs_P s ++ [vdiv w h];
                 gs_H := gs_H s ++ [column] |}
    end.

(** Modelled from the spec: [arnoldi.H[i, j]], zero where no column was
    built. *)
Definition gs_entry (s : gs) (i j : nat) : scalar :=
  nth i (nth j (gs_H s) []) zero.

(** Modelled from the spec: [Arnoldi.get].
    "get: return the current V, H (size (iterations+1) x iterations, or
    iterations x iterations if invariant detected), and P (None if no
    preconditioner)". *)
Definition gs_get (s : gs) : list vec * matrix * option (list vec) :=
  let rows := if gs_invariant s then gs_iter s else gs_iter s + 1 in
  (gs_V s,
   map (fun i => map (fun j => gs_entry s i j) (seq 0 (gs_iter s))) (seq 0 rows),
   match gs_M s with
   | Operator _ => Some (gs_P s)
   | _ => None
   end).

End GramSchmidt.

(** The collaborators built from a [givens] function and the Gram-Schmidt
    engine; the four laws of the interface are checked on the spot. *)
Definition GramSchmidt {NK : Numeric} (giv : scalar * scalar -> mat2)
  : Collaborators.
Proof.
  assert (new_cases : forall op v n o m mv nrm ip (r : outcome gs) (t : trace),
    gs_new op v n o m mv nrm ip = (r, t) ->
    t = [] /\
    match r with
    | Ok s => gs_iter s = 0 /\ gs_maxiter s = n
    | Raise e => exists msg, e = ArnoldiError msg
    end).
  { intros op v n o m mv nrm ip r t. unfold gs_new.
    destruct (String.eqb o "mgs");
      [| destruct (String.eqb o "dmgs");
         [| intros H; inversion H; subst; split; [reflexivity | eexists; reflexivity]]].
    all: unfold bind, ret, raise;
      destruct (match m with Operator _ => _ | _ => _ end) as [[v0 p0] norm];
      destruct (seqb norm zero); intros H; inversion H; subst; cbn;
      (split; [reflexivity |]); first [eexists; reflexivity | split; reflexivity]. }
  assert (advance_cases : forall (s : gs) (r : outcome gs) (t : trace),
    gs_advance s = (r, t) ->
    match r with
    | Ok s' => gs_iter s' = S (gs_iter s) /\ gs_maxiter s' = gs_maxiter s
    | Raise e => exists msg, e = ArnoldiError msg
    end).
  { intros s r t. unfold gs_advance.
    destruct ((gs_maxiter s <=? gs_iter s) || gs_invariant s);
      [intros H; inversion H; subst; eexists; reflexivity |].
    destruct (nth_error (gs_V s) (gs_iter s)) as [vk |];
      [| intros H; inversion H; subst; eexists; reflexivity].
    unfold call, matmul, bind, ret. cbn.
    destruct (gs_passes_run _ _ _ _ _ _) as [cs [w Mw]].
    destruct (seqb _ zero); cbn; intros H; inversion H; subst; cbn;
      split; (lia || reflexivity). }
  refine {| givens := giv;
            arnoldi := gs;
            Arnoldi := gs_new;
            advance := gs_advance;
            arn_iter := gs_iter;
            arn_maxiter := gs_maxiter;
            arn_invariant := gs_invariant;
            arn_V := gs_V;
            arn_H := gs_entry;
            arn_get := gs_get |}.
  - intros op v n o m mv nrm ip s t H.
    destruct (new_cases _ _ _ _ _ _ _ _ _ _ H) as [Ht [Hi Hm]]. auto.
  - intros s s' t H. exact (advance_cases _ _ _ H).
  - intros op v n o m mv nrm ip e t H.
    destruct (new_cases _ _ _ _ _ _ _ _ _ _ H) as [_ He]. exact He.
  - intros s e t H. exact (advance_cases _ _ _ H).
Defined.

(** ** An exact kernel over the rationals, for concrete runs *)

Module Exact.

(** Scalars are rationals in lowest terms and vectors are lists of them.
    Sums, products and quotients are exact.  [Qsqrt] is exact on the squares
    of rationals, which are the only values the runs below take roots of
    (elsewhere it rounds the numerator and the denominator down); no run
    below divides by zero.
    [numpy.Inf] has no rational counterpart; the restart wrapper deletes
    this placeholder before it reads it, and a large number stands in. *)
Definition Qsqrt (q : Q) : Q :=
  let r := Qred q in
  Qred (Z.sqrt (Qnum r) # Pos.sqrt (Qden r)).

Definition Qgtb (p q : Q) : bool := negb (Qle_bool p q).
Definition Qltb (p q : Q) : bool := negb (Qle_bool q p).

Fixpoint zip_with (f : Q -> Q -> Q) (u v : list Q) : list Q :=
  match u, v with
  | x :: u', y :: v' => Qred (f x y) :: zip_with f u' v'
  | _, _ => []
  end.

(** The Euclidean inner product of real vectors. *)
Fixpoint dot (u v : list Q) : Q :=
  match u, v with
  | x :: u', y :: v' => Qred (x * y + dot u' v')
  | _, _ => 0%Q
  end.

(** A dense matrix, by rows, applied to a vector. *)
Definition mat_vec (m : list (list Q)) (v : list Q) : list Q :=
  map (fun row => dot row v) m.

(** Back substitution for an upper-triangular system; [i] is the index of
    the first row of [rows] in the whole matrix. *)
Fixpoint back_substitute (i : nat) (rows : list (list Q)) (y : list Q) : list Q :=
  match rows, y with
  | row :: rows', yi :: y' =>
      let xs := back_substitute (S i) rows' y' in
      Qred ((yi - dot (skipn (S i) row) xs) / nth i row 0%Q) :: xs
  | _, _ => []
  end.

#[export] Instance QNumeric : Numeric.
Proof.
  refine {| scalar := Q;
            vec := list Q;
            zero := 0%Q;
            sadd := fun p q => Qred (p + q);
            smul := fun p q => Qred (p * q);
            sdiv := fun p q => Qred (p / q);
            ssqrt := Qsqrt;
            sabs := fun p => Qred (Qabs p);
            seqb := Qeq_bool;
            sgtb := Qgtb;
            sleb := Qle_bool;
            sltb := Qltb;
            vlen := @length Q;
            zeros_like := map (fun _ => 0%Q);
            vadd := zip_with Qplus;
            vsub := zip_with Qminus;
            vscale := fun c => map (fun x => Qred (c * x));
            vdiv := fun v c => map (fun x => Qred (x / c)) v;
            infinity := (1000000000 # 1)%Q;
            solve_triangular := back_substitute 0;
            sgtb_sltb := _ |}.
  unfold Qgtb, Qltb. intros a b H.
  apply negb_true_iff in H. apply negb_false_iff.
  apply Qle_bool_iff.
  destruct (Qlt_le_dec b a) as [Hlt | Hle].
  - apply Qlt_le_weak. exact Hlt.
  - apply Qle_bool_iff in Hle. congruence.
Defined.

(** Modelled from the spec: [givens] of [krylov/givens.py], which is not
    among the sources.  "Given a 2-vector [a, b], produce a 2x2 rotation
    such that applying it to [a, b] yields [r, 0]" with [r >= 0], and
    "a = 0, b = 0" gives the identity. *)
Definition Qgivens (p : Q * Q) : (Q * Q) * (Q * Q) :=
  let '(a, b) := p in
  let r := Qsqrt (a * a + b * b) in
  if Qeq_bool r 0 then ((1, 0), (0, 1))%Q
  else
    let c := Qred (a / r) in
    let s := Qred (b / r) in
    ((c, s), (Qred (- s), c)).

End Exact.

#[export] Instance ExactCollaborators : @Collaborators Exact.QNumeric :=
  @GramSchmidt Exact.QNumeric Exact.Qgivens.

(** ** Concrete calls *)

Module Runs.
Import Exact.

(** [A = [[1, 4], [0, 3]]] *)
Definition A2 : linear_operator :=
  {| shape := [2; 2]; matvec := mat_vec [[1; 4]; [0; 3]]%Q |}.

(** [A = [[1]]] *)
Definition A1 : linear_operator :=
  {| shape := [1; 1]; matvec := mat_vec [[1%Q]] |}.

(** [gmres(A, b, Mr=Mr, x0=x0, tol=tol, maxiter=maxiter,
    store_arnoldi=store)] with the Euclidean inner product. *)
Definition call_gmres (A : linear_operator) (b : list Q) (Mr : operator)
    (x0 : option (list Q)) (tol : Q) (maxiter : option nat) (store : bool) : Args :=
  {| arg_A := A; arg_b := b;
     arg_M := Identity; arg_Ml := Identity; arg_Mr := Mr;
     arg_inner := dot; arg_exact_solution := None; arg_ortho := "mgs";
     arg_x0 := x0; arg_tol := tol; arg_maxiter := maxiter;
     arg_use_explicit_residual := false; arg_store_arnoldi := store |}.

(** One iteration allowed, tolerance [1e-5]: the residual after the only
    step is [4/5]. *)
Definition unconverged (store : bool) : Args :=
  call_gmres A2 [0; 1]%Q Identity None (1 # 100000)%Q (Some 1) store.

(** The same system with the tolerance [9/10]: one step is enough. *)
Definition converged : Args :=
  call_gmres A2 [0; 1]%Q Identity None (9 # 10)%Q (Some 1) false.

(** The same call with the right preconditioner [2 I]. *)
Definition right_preconditioned : Args :=
  call_gmres A2 [0; 1]%Q (Operator (map (fun x => Qred (2 * x))))
    None (9 # 10)%Q (Some 1) false.

(** No iteration allowed. *)
Definition no_iterations : Args :=
  call_gmres A2 [0; 1]%Q Identity None (1 # 100000)%Q (Some 0) false.

(** A zero right-hand side, from the initial guess [[1]]. *)
Definition zero_rhs (tol : Q) : Args :=
  call_gmres A1 [0%Q] Identity (Some [1%Q]) tol None false.

(** A solver for the restart wrapper: the first run, from no initial guess,
    ends at the residual [1/2]; the second, from the first run's solution,
    starts at [63/128] and ends at [1/16]. *)
Definition two_runs (_ : unit) (kw : kwargs unit) : solver_result unit :=
  match kw_x0 kw with
  | None =>
      NotConverged {| sol_xk := Some [1%Q]; sol_tol := (1 # 10)%Q;
                      sol_resnorms := [1; 1 # 2]%Q; sol_errnorms := [] |}
  | Some _ =>
      Solved {| sol_xk := Some [2%Q]; sol_tol := (1 # 10)%Q;
                sol_resnorms := [63 # 128; 1 # 16]%Q; sol_errnorms := [] |}
  end.

(** A solver whose second run starts where the first run ended. *)
Definition two_chained_runs (_ : unit) (kw : kwargs unit) : solver_result unit :=
  match kw_x0 kw with
  | None =>
      NotConverged {| sol_xk := Some [1%Q]; sol_tol := (1 # 10)%Q;
                      sol_resnorms := [1; 1 # 2]%Q; sol_errnorms := [2; 1]%Q |}
  | Some _ =>
      Solved {| sol_xk := Some [2%Q]; sol_tol := (1 # 10)%Q;
                sol_resnorms := [1 # 2; 1 # 16]%Q; sol_errnorms := [1; 1 # 8]%Q |}
  end.

(** The engine [converged] creates, the locals with which it enters the
    loop, and the locals after the first half of its only pass. *)
Definition converged_engine : gs :=
  {| gs_op := MlAMr converged; gs_M := Identity; gs_inner := dot;
     gs_passes := 1; gs_maxiter := 1; gs_iter := 0; gs_invariant := false;
     gs_V := [[0; 1]%Q]; gs_P := [[0; 1]%Q]; gs_H := [] |}.

Definition converged_entry : locals := entry_locals converged converged_engine.

Definition converged_rotated : locals :=
  match fst (advance_and_rotate 1 converged_entry) with
  | Ok l => l
  | Raise _ => converged_entry
  end.

(** The two calls of [two_chained_runs], with an exact solution tracked. *)
Definition chained_restart : restart_error unit + restarted :=
  @_RestartedSolver QNumeric unit unit unit (fun _ => Some [0%Q])
    two_chained_runs tt 1 {| kw_x0 := None; kw_other := tt |}.

End Runs.


(** ** Definitions for the further properties of the driver *)

Section DriverHistory.
Context {NK : Numeric} {KC : Collaborators}.

(** What holds of the history at every loop test: it has one entry per step
    made and the seed; the engine has made no more steps than allowed; and
    every entry but the last is above the tolerance. *)
Record history_invariant (a : Args) (l : locals) : Prop := {
  hist_length : length (st_resnorms l) = arn_iter (st_arnoldi l) + 1;
  hist_steps : arn_iter (st_arnoldi l) <= sanitized_maxiter a;
  hist_above :
    Forall (fun r => sgtb r (arg_tol a) = true) (removelast (st_resnorms l))
}.

(** The call [a] without [exact_solution]. *)
Definition without_exact_solution (a : Args) : Args :=
  {| arg_A := arg_A a; arg_b := arg_b a;
     arg_M := arg_M a; arg_Ml := arg_Ml a; arg_Mr := arg_Mr a;
     arg_inner := arg_inner a; arg_exact_solution := None;
     arg_ortho := arg_ortho a; arg_x0 := arg_x0 a; arg_tol := arg_tol a;
     arg_maxiter := arg_maxiter a;
     arg_use_explicit_residual := arg_use_explicit_residual a;
     arg_store_arnoldi := arg_store_arnoldi a |}.

(** Two states of the locals that differ at most in the error history and
    in the solution held. *)
Record same_but_diagnostics (l l0 : locals) : Prop := {
  same_st_x0 : st_x0 l = st_x0 l0;
  same_st_arnoldi : st_arnoldi l = st_arnoldi l0;
  same_st_iter : st_iter l = st_iter l0;
  same_st_resnorms : st_resnorms l = st_resnorms l0;
  same_st_G : st_G l = st_G l0;
  same_st_R : st_R l = st_R l0;
  same_st_y : st_y l = st_y l0;
  same_st_V : st_V l = st_V l0
}.

(** Two outcomes that agree up to the diagnostics: the same exception, or
    locals that differ at most in the diagnostics. *)
Definition same_outcome (r r0 : outcome locals) : Prop :=
  match r, r0 with
  | Ok l, Ok l0 => same_but_diagnostics l l0
  | Raise e, Raise e0 => e = e0
  | _, _ => False
  end.

End DriverHistory.

(** ** Definitions for the further properties of the restart wrapper *)

Section RestartProgress.
Context {NK : Numeric}.
Variables (LinearSystem Opts Exn : Type).
Variable exact_solution : LinearSystem -> option vec.
Variable Solver : LinearSystem -> kwargs Opts -> solver_result Exn.
Variable linear_system : LinearSystem.
Variable max_restarts : nat.

(** The entry ["x0"] of [kwargs] after the runs [runs], oldest first, when
    it was [x0] before them: [kwargs.update({"x0": self.xk})] is executed
    only when [self.xk] is not [None], gmres.py:299-301. *)
Definition guess_after (x0 : option vec) (runs : list solver) : option vec :=
  fold_left
    (fun g sol => match sol_xk sol with Some x => Some x | None => g end)
    runs x0.

(** The call [r] handed the solver object [sol] to the wrapper, by
    returning it or inside a [utils.ConvergenceError]. *)
Definition produced (r : solver_result Exn) (sol : solver) : Prop :=
  r = Solved sol \/ r = NotConverged sol.

(** Every run of [runs] is the solver called with the caller's keyword
    arguments [kw], except for ["x0"], which is what the runs before it
    left. *)
Definition runs_chained (kw : kwargs Opts) (runs : list solver) : Prop :=
  forall pre sol post, runs = pre ++ sol :: post ->
  produced
    (Solver linear_system
       {| kw_x0 := guess_after (kw_x0 kw) pre; kw_other := kw_other kw |})
    sol.

(** The keyword arguments of the next call, gmres.py:299-304. *)
Definition next_kwargs (st : restart_state Opts) : kwargs Opts :=
  match self_xk (rs_self st) with
  | Some x => {| kw_x0 := Some x; kw_other := kw_other (rs_kwargs st) |}
  | None => rs_kwargs st
  end.

(** What holds of the runs at every loop test, for the caller's keyword
    arguments [kw]. *)
Record restart_progress (kw : kwargs Opts) (st : restart_state Opts) : Prop := {
  prog_bound : rs_restart st <= max_restarts + 1;
  prog_runs : length (self_runs (rs_self st)) = rs_restart st;
  prog_chained : runs_chained kw (self_runs (rs_self st));
  prog_next :
    next_kwargs st =
    {| kw_x0 := guess_after (kw_x0 kw) (self_runs (rs_self st));
       kw_other := kw_other kw |};
  prog_latest :
    match rev (self_runs (rs_self st)) with
    | [] => self_xk (rs_self st) = None
    | sol :: _ =>
        self_xk (rs_self st) = sol_xk sol /\ rs_tol st = Some (sol_tol sol)
    end
}.

(** The histories held are not empty. *)
Definition holds_entries (self : restarted) : Prop :=
  self_resnorms self <> [] /\ self_errnorms self <> Some [].

(** Every solver object the solver hands over has a residual history with
    an entry, and an error history with an entry when an exact solution is
    tracked. *)
Definition solver_records : Prop :=
  forall kw sol, produced (Solver linear_system kw) sol ->
  sol_resnorms sol <> [] /\
  (exact_solution linear_system <> None -> sol_errnorms sol <> []).

(** The state in which the constructor enters its loop. *)
Definition restart_entry (kw : kwargs Opts) : restart_state Opts :=
  {| rs_self :=
       {| self_xk := None; self_resnorms := [infinity];
          self_errnorms :=
            match exact_solution linear_system with
            | Some _ => Some [infinity]
            | None => None
            end;
          self_runs := [] |};
     rs_kwargs := kw; rs_tol := None; rs_restart := 0 |}.

End RestartProgress.

(** ** The perturbation bound: [bound_perturbed_gmres] *)

Section PerturbationBound.
Context {NK : Numeric}.

(** How [bound_perturbed_gmres] can fail: with its own [ArgumentError], or
    with an exception of the pseudospectrum object, of the polynomial, of
    NumPy or of a division. *)
Inductive bound_error (Exn : Type) : Type :=
| ArgumentError (msg : string)
| Propagated (e : Exn).
Arguments ArgumentError {Exn} msg.
Arguments Propagated {Exn} e.

Variables (Exn Paths Vertices Values : Type).
(** [pseudo.contour_paths(delta)], [paths.vertices()], [paths.length()] *)
Variable contour_paths : scalar -> Exn + Paths.
Variable path_vertices : Paths -> Exn + Vertices.
Variable path_length : Paths -> Exn + scalar.
(** the polynomial [p], and [numpy.max(numpy.abs(_))], which raises at an
    empty array *)
Variable p : Vertices -> Exn + Values.
Variable max_abs : Values -> Exn + scalar.
(** [-]; [/], which raises at a zero divisor when the operands are Python
    floats; and [2 * numpy.pi] *)
Variable ssub : scalar -> scalar -> scalar.
Variable divide : scalar -> scalar -> Exn + scalar.
Variable two_pi : scalar.

(** A call of a collaborator inside the function, followed by the rest. *)
Definition calling {X Y : Type} (c : Exn + X) (k : X -> bound_error Exn + Y)
  : bound_error Exn + Y :=
  match c with
  | inl e => inl (Propagated e)
  | inr x => k x
  end.

(** The body of the loop, gmres.py:338-354: the entry appended for
    [delta]. *)
Definition bound_entry (epsilon delta : scalar) : bound_error Exn + scalar :=
  calling (contour_paths delta) (fun paths =>
  calling (path_vertices paths) (fun vertices =>
  calling (p vertices) (fun values =>
  calling (max_abs values) (fun supremum =>
  calling (divide epsilon (ssub delta epsilon)) (fun q =>
  calling (path_length paths) (fun len =>
  calling (divide (smul q len) (smul two_pi delta)) (fun q' =>
  inr (smul q' supremum)))))))).

(** The loop, gmres.py:337-354, from the list [bound] built so far. *)
Fixpoint bound_loop (epsilon : scalar) (deltas bound : list scalar)
  : bound_error Exn + list scalar :=
  match deltas with
  | [] => inr bound
  | delta :: rest =>
      match bound_entry epsilon delta with
      | inl e => inl e
      | inr b => bound_loop epsilon rest (bound ++ [b])
      end
  end.

(** [bound_perturbed_gmres(pseudo, p, epsilon, deltas)], gmres.py:328-355 *)
Definition bound_perturbed_gmres (epsilon : scalar) (deltas : list scalar)
  : bound_error Exn + list scalar :=
  if negb (forallb (fun delta => sgtb delta epsilon) deltas) then
    inl (ArgumentError "all deltas have to be greater than epsilon")
  else bound_loop epsilon deltas [].

End PerturbationBound.

Arguments ArgumentError {Exn} msg.
Arguments Propagated {Exn} e.

(** ** Concrete pseudospectra *)

Module Contours.
Import Exact.

(** The largest absolute value of a non-empty list; [numpy.max] raises at
    an empty array. *)
Definition Qmax_abs (values : list Q) : unit + Q :=
  match values with
  | [] => inl tt
  | v :: vs =>
      inr (fold_left
             (fun m x => if Qle_bool (Qred (Qabs x)) m then m else Qred (Qabs x))
             vs (Qred (Qabs v)))
  end.

(** Division of Python floats: a zero divisor raises. *)
Definition Qdivide (x y : Q) : unit + Q :=
  if Qeq_bool y 0 then inl tt else inr (Qred (x / y)).

(** A pseudospectrum known up to [delta = 1], whose boundary at [delta] is
    the circle of radius [delta] around the origin, sampled at its two real
    points; the polynomial [p(z) = 1 - z]; and [44/7] in place of
    [2 * numpy.pi]. *)
Definition disc_bound : Q -> list Q -> bound_error unit + list Q :=
  @bound_perturbed_gmres QNumeric unit Q (list Q) (list Q)
    (fun delta => if Qle_bool delta 1 then inr delta else inl tt)
    (fun radius => inr [radius; Qred (- radius)])
    (fun radius => inr (Qred ((44 # 7) * radius)))
    (fun vertices => inr (map (fun z => Qred (1 - z)) vertices))
    Qmax_abs
    (fun x y => Qred (x - y))
    Qdivide
    (44 # 7)%Q.

End Contours.

(** ** Facts about [Run] *)

Section RunFacts.
Context {NK : Numeric}.

Lemma bind_Ok {X Y} (c : Run X) (k : X -> Run Y) (x : X) (t : trace) :
  c = (Ok x, t) -> bind c k = (fst (k x), t ++ snd (k x)).
Proof. intros ->. unfold bind. destruct (k x); reflexivity. Qed.

Lemma bind_Raise {X Y} (c : Run X) (k : X -> Run Y) (e : error) (t : trace) :
  c = (Raise e, t) -> bind c k = (Raise e, t).
Proof. intros ->. reflexivity. Qed.

Lemma bind_run {X Y} (x : X) (t : trace) (k : X -> Run Y) :
  bind (Ok x, t) k = (fst (k x), t ++ snd (k x)).
Proof. apply bind_Ok. reflexivity. Qed.

Lemma bind_inv_Ok {X Y} (c : Run X) (k : X -> Run Y) (y : Y) (t : trace) :
  bind c k = (Ok y, t) ->
  exists x t1 t2, c = (Ok x, t1) /\ k x = (Ok y, t2) /\ t = t1 ++ t2.
Proof.
  unfold bind. destruct c as [[x | e] t1]; [| discriminate].
  destruct (k x) as [r t2] eqn:E. intros H. inversion H; subst.
  exists x, t1, t2. auto.
Qed.

Lemma bind_inv_Raise {X Y} (c : Run X) (k : X -> Run Y) (e : error) (t : trace) :
  bind c k = (Raise e, t) ->
  c = (Raise e, t) \/
  exists x t1 t2, c = (Ok x, t1) /\ k x = (Raise e, t2) /\ t = t1 ++ t2.
Proof.
  unfold bind. destruct c as [[x | e'] t1].
  - destruct (k x) as [r t2] eqn:E. intros H. inversion H; subst.
    right. exists x, t1, t2. auto.
  - intros H. inversion H; subst. left. reflexivity.
Qed.

Lemma count_app (e : event) (t1 t2 : trace) :
  count e (t1 ++ t2) = count e t1 + count e t2.
Proof. unfold count. rewrite filter_app, length_app. reflexivity. Qed.

Lemma count_op_events_other (e tag : event) (op : operator) :
  event_eqb e tag = false -> count e (op_events tag op) = 0.
Proof. intros H. destruct op; simpl; unfold count; simpl; try rewrite H; reflexivity. Qed.

Lemma apply_unless_none_run (tag : event) (op : operator) (v : vec) :
  apply_unless_none tag op v = (Ok (op_value op v), op_events tag op).
Proof. destruct op; reflexivity. Qed.

End RunFacts.

(** Stepping through a computation: rewrite the calls whose value and events
    are known, then enter the continuation. *)
Create Rewrite HintDb run.
#[export] Hint Rewrite @bind_run @apply_unless_none_run : run.

Ltac run_steps :=
  unfold emit, ret, raise, call, matmul;
  repeat (progress (autorewrite with run; cbv beta; cbn [fst snd])).

(** ** Facts about the driver *)

Section DriverProperties.
Context {NK : Numeric} {KC : Collaborators}.

Lemma check_shapes_run (a : Args) :
  check_shapes a =
  if shapes_match a then (Ok tt, []) else (Raise AssertionError, []).
Proof.
  unfold check_shapes, shapes_match.
  destruct (shape (arg_A a)) as [| r [| c [| x s]]]; try reflexivity.
  simpl. destruct (r =? c); simpl; [| reflexivity].
  destruct (c =? vlen (arg_b a)); reflexivity.
Qed.

Lemma get_residual_and_norm_run (a : Args) (z : vec) :
  get_residual_and_norm a z = (Ok (residual a z), residual_events a).
Proof.
  unfold get_residual_and_norm, get_residual, residual, residual_events.
  run_steps. rewrite ?app_nil_r. reflexivity.
Qed.
#[local] Hint Rewrite get_residual_and_norm_run : run.

Lemma get_residual_norm_run (a : Args) (z : vec) :
  get_residual_norm a z = (Ok (snd (residual a z)), residual_events a).
Proof.
  unfold get_residual_norm. run_steps.
  destruct (residual a z) as [[u v] n]. simpl.
  rewrite ?app_nil_r. reflexivity.
Qed.
#[local] Hint Rewrite get_residual_norm_run : run.

Lemma count_residual_events (a : Args) : count ApplyA (residual_events a) = 1.
Proof.
  unfold residual_events. change (ApplyA :: ?t) with ([ApplyA] ++ t).
  rewrite !count_app, !count_op_events_other by reflexivity. reflexivity.
Qed.

Lemma _get_xk_run (a : Args) (l : locals) (y : list scalar) :
  _get_xk a l (Some y) = (Ok (reconstruct a l y), reconstruct_events a l).
Proof.
  unfold _get_xk, reconstruct, reconstruct_events.
  destruct (0 <? arn_iter (st_arnoldi l)); [| reflexivity].
  run_steps. rewrite ?app_nil_r. reflexivity.
Qed.
#[local] Hint Rewrite _get_xk_run : run.

Lemma count_reconstruct_events (a : Args) (l : locals) :
  count ApplyA (reconstruct_events a l) = 0.
Proof.
  unfold reconstruct_events. destruct (0 <? _); [| reflexivity].
  change (SolveTriangular :: ?t) with ([SolveTriangular] ++ t).
  rewrite count_app, count_op_events_other by reflexivity. reflexivity.
Qed.

Lemma ensure_xk_run (a : Args) (l : locals) (xk : option vec) (yk : list scalar) :
  ensure_xk a l xk yk = (Ok (fst (ensured a l xk yk)), snd (ensured a l xk yk)).
Proof. destruct xk; simpl; [reflexivity | apply _get_xk_run]. Qed.
#[local] Hint Rewrite ensure_xk_run : run.

Lemma start_gmres_run (a : Args) :
  start_gmres a =
  match new_engine a with
  | (Ok arn, t) => (Ok (rhs_norm a, entry_locals a arn), start_events a ++ t)
  | (Raise e, t) => (Raise e, start_events a ++ t)
  end.
Proof.
  unfold start_gmres, new_engine, entry_locals, initial_relres, start_events, rhs_norm.
  run_steps.
  destruct (residual a (initial_guess a)) as [[MMlr0 Mlr0] n0] eqn:E.
  run_steps.
  destruct (seqb _ zero); simpl;
    destruct (Arnoldi _ _ _ _ _ _ _ _) as [[arn | e] t]; simpl;
    rewrite ?app_nil_r, <- ?app_assoc; reflexivity.
Qed.

Lemma py_index_cases {X} (l : list X) (i : nat) :
  (i < length l /\ exists x, py_index l i = (Ok x, [])) \/
  (length l <= i /\ py_index l i = (Raise IndexError, [])).
Proof.
  unfold py_index. destruct (nth_error l i) as [x |] eqn:E.
  - left. split; [| exists x; reflexivity]. apply nth_error_Some. congruence.
  - right. split; [| reflexivity]. apply nth_error_None. exact E.
Qed.

Lemma for_each_rotations_cases (G : list mat2) (k : nat) (xs : list nat) (R : matrix) :
  (exists R', for_each xs (previous_rotation G k) R = (Ok R', [])) \/
  for_each xs (previous_rotation G k) R = (Raise IndexError, []).
Proof.
  revert R. induction xs as [| i xs IH]; intros R; simpl.
  - left. exists R. reflexivity.
  - unfold previous_rotation at 1 3.
    destruct (py_index_cases G i) as [[Hi [g ->]] | [Hi ->]].
    + run_steps.
      destruct (IH (rotate_rows g i k R)) as [[R' HR'] | HR']; rewrite HR'.
      * left. exists R'. reflexivity.
      * right. reflexivity.
    + right. reflexivity.
Qed.

Lemma for_each_rotations_Ok (G : list mat2) (k : nat) (xs : list nat) (R : matrix) :
  (forall i, In i xs -> i < length G) ->
  exists R', for_each xs (previous_rotation G k) R = (Ok R', []).
Proof.
  revert R. induction xs as [| i xs IH]; intros R Hxs; simpl.
  - exists R. reflexivity.
  - unfold previous_rotation at 1.
    destruct (py_index_cases G i) as [[Hi [g ->]] | [Hi _]].
    + run_steps.
      destruct (IH (rotate_rows g i k R)) as [R' HR'].
      { intros j Hj. apply Hxs. right. exact Hj. }
      rewrite HR'. exists R'. reflexivity.
    + specialize (Hxs i (or_introl eq_refl)). lia.
Qed.

(** What a successful first half of the body leaves. *)
Lemma advance_and_rotate_Ok (m : nat) (l l' : locals) (t : trace) :
  advance_and_rotate m l = (Ok l', t) ->
  advance (st_arnoldi l) = (Ok (st_arnoldi l'), t) /\
  st_iter l' = arn_iter (st_arnoldi l) /\
  st_x0 l' = st_x0 l /\
  st_resnorms l' = st_resnorms l /\
  st_errnorms l' = st_errnorms l /\
  st_V l' = arn_V (st_arnoldi l') /\
  length (st_G l') = S (length (st_G l)).
Proof.
  unfold advance_and_rotate.
  destruct (advance (st_arnoldi l)) as [[arn | e] t0]; [| discriminate].
  run_steps.
  destruct (arn_iter (st_arnoldi l) <? m); [| discriminate].
  run_steps.
  match goal with
  | |- context [for_each ?xs _ ?R] =>
      destruct (for_each_rotations_cases (st_G l) (arn_iter (st_arnoldi l)) xs R)
        as [[R' HR'] | HR']; rewrite HR'
  end; [| discriminate].
  run_steps.
  match goal with
  | |- context [py_index ?G ?k] =>
      destruct (py_index_cases G k) as [[_ [g ->]] | [_ ->]]
  end; [| discriminate].
  run_steps. rewrite ?app_nil_r.
  intros H. inversion H; subst; simpl.
  rewrite length_app. simpl. repeat split; try reflexivity. lia.
Qed.

(** The first half of the body fails only when the engine does, as long as
    the column index is inside [R] and one rotation is held per step. *)
Lemma advance_and_rotate_Raise (m : nat) (l : locals) (e : error) (t : trace) :
  advance_and_rotate m l = (Raise e, t) ->
  arn_iter (st_arnoldi l) < m ->
  length (st_G l) = arn_iter (st_arnoldi l) ->
  exists msg, e = ArnoldiError msg.
Proof.
  unfold advance_and_rotate. intros H Hk HG.
  destruct (advance (st_arnoldi l)) as [[arn | e0] t0] eqn:Eadv.
  2:{ unfold bind in H. inversion H; subst. eapply advance_raises; eauto. }
  revert H. run_steps.
  apply Nat.ltb_lt in Hk. rewrite Hk. run_steps.
  match goal with
  | |- context [for_each ?xs _ ?R] =>
      destruct (for_each_rotations_Ok (st_G l) (arn_iter (st_arnoldi l)) xs R)
        as [R' HR']
  end.
  { intros i Hi. apply in_seq in Hi. lia. }
  rewrite HR'. run_steps.
  match goal with
  | |- context [py_index ?G ?k] =>
      destruct (py_index_cases G k) as [[_ [g ->]] | [Hlen _]]
  end.
  - run_steps. discriminate.
  - rewrite length_app in Hlen. simpl in Hlen. lia.
Qed.

Lemma app_one_not_nil {X} (l : list X) (x : X) : l ++ [x] <> [].
Proof. destruct l; discriminate. Qed.

Lemma set_last_app (l : list scalar) (x v : scalar) :
  set_last (l ++ [x]) v = l ++ [v].
Proof. unfold set_last. rewrite removelast_last. reflexivity. Qed.

Lemma last_entry_app (l : list scalar) (x : scalar) : last_entry (l ++ [x]) = x.
Proof. unfold last_entry. apply last_last. Qed.

(** What a successful second half of the body leaves: it touches only the
    histories and the solution held. *)
Lemma update_residual_Ok (a : Args) (m : nat) (n : scalar) (l l' : locals) (t : trace) :
  update_residual a m n l = (Ok l', t) ->
  st_arnoldi l' = st_arnoldi l /\ st_iter l' = st_iter l /\
  st_x0 l' = st_x0 l /\ st_G l' = st_G l /\ st_R l' = st_R l /\
  st_y l' = st_y l /\ st_V l' = st_V l /\
  st_resnorms l' <> [] /\
  (forall x, st_xk l' = Some x ->
             x = reconstruct a l (firstn (st_iter l + 1) (st_y l))).
Proof.
  unfold update_residual.
  destruct (arg_exact_solution a); destruct (arg_use_explicit_residual a);
    run_steps; destruct (sleb _ _); cbn [negb]; run_steps;
    try destruct (_ =? m); try discriminate;
    intros H; inversion H; subst; cbn;
    rewrite ?set_last_app;
    repeat split; try apply app_one_not_nil;
    intros x Hx; inversion Hx; reflexivity.
Qed.

(** The second half of the body raises nothing but the [ConvergenceError]
    of the last iteration. *)
Lemma update_residual_Raise (a : Args) (m : nat) (n : scalar) (l : locals)
    (e : error) (t : trace) :
  update_residual a m n l = (Raise e, t) ->
  exists r, e = ConvergenceError m r.
Proof.
  unfold update_residual.
  destruct (arg_exact_solution a); destruct (arg_use_explicit_residual a);
    run_steps; destruct (sleb _ _); cbn [negb]; run_steps;
    try destruct (_ =? m); try discriminate;
    intros H; inversion H; subst; eauto.
Qed.

Lemma reconstruct_ext (a : Args) (l l' : locals) (y : list scalar) :
  st_arnoldi l' = st_arnoldi l -> st_x0 l' = st_x0 l ->
  st_R l' = st_R l -> st_V l' = st_V l ->
  reconstruct a l' y = reconstruct a l y.
Proof. unfold reconstruct. intros -> -> -> ->. reflexivity. Qed.

Lemma new_engine_fresh (a : Args) (arn : arnoldi) (t : trace) :
  new_engine a = (Ok arn, t) ->
  arn_iter arn = 0 /\ arn_maxiter arn = sanitized_maxiter a /\ t = [].
Proof.
  unfold new_engine. destruct (residual a (initial_guess a)) as [[u v] n].
  apply Arnoldi_fresh.
Qed.

Lemma new_engine_raises (a : Args) (e : error) (t : trace) :
  new_engine a = (Raise e, t) -> exists msg, e = ArnoldiError msg.
Proof.
  unfold new_engine. destruct (residual a (initial_guess a)) as [[u v] n].
  apply Arnoldi_raises.
Qed.

(** The invariant holds when the loop is entered. *)
Lemma entry_invariant (a : Args) (arn : arnoldi) (t : trace) :
  new_engine a = (Ok arn, t) -> loop_invariant a (entry_locals a arn).
Proof.
  intros H. destruct (new_engine_fresh _ H) as (Hi & Hm & _).
  constructor; unfold entry_locals; cbn.
  - exact Hm.
  - symmetry. exact Hi.
  - destruct (seqb _ _); discriminate.
  - rewrite Hi. reflexivity.
  - rewrite Hi. lia.
  - intros x Hx. unfold solution_at_exit, reconstruct. cbn. rewrite Hi. cbn.
    destruct (seqb _ _); congruence.
  - reflexivity.
Qed.

(** The invariant is kept by every pass, which makes one step. *)
Lemma loop_body_Ok (a : Args) (n : scalar) (l l' : locals) (t : trace) :
  loop_invariant a l ->
  loop_body a (sanitized_maxiter a) n l = (Ok l', t) ->
  loop_invariant a l' /\ arn_iter (st_arnoldi l') = S (arn_iter (st_arnoldi l)).
Proof.
  intros Inv H. unfold loop_body in H.
  apply bind_inv_Ok in H. destruct H as (l1 & t1 & t2 & H1 & H2 & _).
  apply advance_and_rotate_Ok in H1.
  destruct H1 as (Hadv & Hit & Hx0 & Hres & _ & HV & HG).
  apply advance_iter in Hadv. destruct Hadv as [Hstep Hmax].
  apply update_residual_Ok in H2.
  destruct H2 as (Ha & Hi & Hx & HG' & HR & Hy & HV' & Hne & Hxk).
  split; [| rewrite Ha; exact Hstep].
  constructor.
  - rewrite Ha, Hmax. apply Inv.
  - rewrite HG', HG, Ha, Hstep. f_equal. apply Inv.
  - exact Hne.
  - rewrite Hi, Hit, Ha, Hstep. lia.
  - intros _. rewrite HV', Ha. exact HV.
  - intros x Hx'. rewrite (Hxk x Hx'). unfold solution_at_exit.
    rewrite (reconstruct_ext a l1 l' _ Ha Hx HR HV').
    rewrite Hy, Ha, Hstep, Hit. f_equal. f_equal. lia.
  - rewrite Hx, Hx0. apply Inv.
Qed.

Lemma loop_body_Raise (a : Args) (n : scalar) (l : locals) (e : error) (t : trace) :
  loop_invariant a l -> loop_test a l = true ->
  loop_body a (sanitized_maxiter a) n l = (Raise e, t) ->
  driver_error (sanitized_maxiter a) e.
Proof.
  intros Inv Htest H. unfold loop_body in H.
  apply bind_inv_Raise in H. destruct H as [H | (l1 & t1 & t2 & _ & H & _)].
  - left. eapply advance_and_rotate_Raise; eauto.
    + unfold loop_test in Htest.
      apply andb_true_iff in Htest. destruct Htest as [Htest _].
      apply andb_true_iff in Htest. destruct Htest as [_ Hlt].
      apply Nat.ltb_lt in Hlt. rewrite <- (inv_maxiter Inv). exact Hlt.
    + apply Inv.
  - right. eapply update_residual_Raise; eauto.
Qed.

Lemma gmres_loop_Ok (a : Args) (n : scalar) (budget : nat) :
  forall (l l' : locals) (t : trace),
  loop_invariant a l ->
  gmres_loop a (sanitized_maxiter a) n budget l = (Ok l', t) ->
  loop_invariant a l' /\ loop_test a l' = false.
Proof.
  induction budget as [| budget IH]; intros l l' t Inv H; simpl in H;
    destruct (loop_test a l) eqn:Htest.
  - discriminate.
  - inversion H; subst. auto.
  - apply bind_inv_Ok in H. destruct H as (l1 & t1 & t2 & H1 & H2 & _).
    apply (IH l1 l' t2); [| exact H2].
    eapply loop_body_Ok; eauto.
  - inversion H; subst. auto.
Qed.

(** The loop needs at most as many passes as the engine has steps left. *)
Lemma gmres_loop_Raise (a : Args) (n : scalar) (budget : nat) :
  forall (l : locals) (e : error) (t : trace),
  loop_invariant a l ->
  arn_maxiter (st_arnoldi l) - arn_iter (st_arnoldi l) <= budget ->
  gmres_loop a (sanitized_maxiter a) n budget l = (Raise e, t) ->
  driver_error (sanitized_maxiter a) e.
Proof.
  induction budget as [| budget IH]; intros l e t Inv Hb H; simpl in H;
    destruct (loop_test a l) eqn:Htest; try discriminate.
  - exfalso. unfold loop_test in Htest.
    apply andb_true_iff in Htest. destruct Htest as [Htest _].
    apply andb_true_iff in Htest. destruct Htest as [_ Hlt].
    apply Nat.ltb_lt in Hlt. lia.
  - apply bind_inv_Raise in H. destruct H as [H | (l1 & t1 & t2 & H1 & H2 & _)].
    + eapply loop_body_Raise; eauto.
    + edestruct loop_body_Ok as [Inv1 Hstep]; [exact Inv | exact H1 |].
      apply (IH l1 e t2 Inv1); [| exact H2].
      rewrite Hstep, (inv_maxiter Inv1), <- (inv_maxiter Inv). lia.
Qed.

(** The iteration, from the call to the exit of the loop. *)
Lemma iterate_gmres_Ok (a : Args) (l : locals) (t : trace) :
  iterate_gmres a = (Ok l, t) ->
  shapes_match a = true /\ loop_invariant a l /\ loop_test a l = false /\
  exists arn t', new_engine a = (Ok arn, []) /\
    gmres_loop a (sanitized_maxiter a) (rhs_norm a) (sanitized_maxiter a)
      (entry_locals a arn) = (Ok l, t') /\
    t = start_events a ++ t'.
Proof.
  unfold iterate_gmres. rewrite check_shapes_run, start_gmres_run.
  destruct (shapes_match a); [| discriminate].
  destruct (new_engine a) as [[arn | e] t0] eqn:E; [| discriminate].
  destruct (new_engine_fresh _ E) as (_ & _ & ->).
  run_steps. rewrite app_nil_r.
  destruct (gmres_loop _ _ _ _ _) as [[l1 | e] t1] eqn:El; [| discriminate].
  cbn [fst snd]. intros H. inversion H; subst.
  edestruct gmres_loop_Ok as [Inv Htest]; [exact (entry_invariant _ E) | exact El |].
  split; [reflexivity |]. split; [exact Inv |]. split; [exact Htest |].
  exists arn, t1. auto.
Qed.

Lemma iterate_gmres_Raise (a : Args) (e : error) (t : trace) :
  iterate_gmres a = (Raise e, t) ->
  (shapes_match a = false /\ e = AssertionError /\ t = []) \/
  (shapes_match a = true /\ driver_error (sanitized_maxiter a) e).
Proof.
  unfold iterate_gmres. rewrite check_shapes_run, start_gmres_run.
  destruct (shapes_match a).
  2:{ intros H. inversion H; subst. left. auto. }
  intros H. right. split; [reflexivity |]. revert H.
  destruct (new_engine a) as [[arn | e0] t0] eqn:E.
  - destruct (new_engine_fresh _ E) as (Hi & Hm & ->).
    run_steps.
    destruct (gmres_loop _ _ _ _ _) as [[l1 | e1] t1] eqn:El; [discriminate |].
    cbn [fst snd]. intros H. inversion H; subst.
    eapply gmres_loop_Raise; [apply (entry_invariant _ E) | | exact El].
    unfold entry_locals; cbn. lia.
  - run_steps. intros H. inversion H; subst.
    left. eapply new_engine_raises; eauto.
Qed.

(** What [gmres] returns, read off the locals at the exit of the loop. *)
Lemma finish_gmres_run (a : Args) (l : locals) :
  loop_invariant a l ->
  finish_gmres a l =
  (Ok (if sltb (last_entry (st_resnorms l)) (arg_tol a)
       then Some (solution_at_exit a l) else None,
       {| resnorms := st_resnorms l;
          operations := count_operations (st_iter l) |}),
   match st_xk l with
   | None => reconstruct_events a l
   | Some _ => []
   end).
Proof.
  intros Inv. unfold finish_gmres. run_steps. rewrite app_nil_r.
  destruct (st_xk l) as [x |] eqn:Ex; cbn.
  - rewrite (inv_xk Inv Ex). reflexivity.
  - reflexivity.
Qed.

Lemma gmres_Ok (a : Args) (sol : option vec) (info : KrylovInfo) (t : trace) :
  gmres a = (Ok (sol, info), t) ->
  exists l t1,
    iterate_gmres a = (Ok l, t1) /\ loop_invariant a l /\
    sol = (if sltb (last_entry (st_resnorms l)) (arg_tol a)
           then Some (solution_at_exit a l) else None) /\
    info = {| resnorms := st_resnorms l;
              operations := count_operations (st_iter l) |}.
Proof.
  unfold gmres. intros H.
  apply bind_inv_Ok in H. destruct H as (l & t1 & t2 & H1 & H2 & _).
  destruct (iterate_gmres_Ok _ H1) as (_ & Inv & _).
  rewrite (finish_gmres_run Inv) in H2. inversion H2; subst.
  exists l, t1. auto.
Qed.

Lemma gmres_loop_exit (a : Args) (m : nat) (n : scalar) (budget : nat) (l : locals) :
  loop_test a l = false -> gmres_loop a m n budget l = (Ok l, []).
Proof. intros H. destruct budget; simpl; rewrite H; reflexivity. Qed.

Lemma count_start_events (a : Args) : count ApplyA (start_events a) = 1.
Proof.
  unfold start_events.
  rewrite !count_app, count_residual_events, !count_op_events_other by reflexivity.
  reflexivity.
Qed.

(** A call whose loop test fails at once returns what the set-up left. *)
Lemma gmres_without_iteration (a : Args) (arn : arnoldi) :
  shapes_match a = true ->
  fst (new_engine a) = Ok arn ->
  loop_test a (entry_locals a arn) = false ->
  gmres a =
  (Ok (if sltb (last_entry (st_resnorms (entry_locals a arn))) (arg_tol a)
       then Some (st_x0 (entry_locals a arn)) else None,
       {| resnorms := st_resnorms (entry_locals a arn);
          operations := count_operations 0 |}),
   start_events a).
Proof.
  intros Hshape Hnew Htest.
  destruct (new_engine a) as [r t0] eqn:E. simpl in Hnew. subst r.
  destruct (new_engine_fresh _ E) as (Hi & Hm & ->).
  pose proof (entry_invariant _ E) as Inv.
  unfold gmres, iterate_gmres.
  rewrite check_shapes_run, Hshape, start_gmres_run, E.
  run_steps. rewrite gmres_loop_exit by exact Htest.
  run_steps. rewrite (finish_gmres_run Inv).
  cbn [fst snd].
  assert (Hsol : solution_at_exit a (entry_locals a arn) = st_x0 (entry_locals a arn)).
  { unfold solution_at_exit, reconstruct. cbn [st_arnoldi entry_locals].
    rewrite Hi. reflexivity. }
  rewrite Hsol.
  assert (Hev : match st_xk (entry_locals a arn) with
                | None => reconstruct_events a (entry_locals a arn)
                | Some _ => []
                end = []).
  { destruct (st_xk _); [reflexivity |].
    unfold reconstruct_events. cbn [st_arnoldi entry_locals]. rewrite Hi. reflexivity. }
  rewrite Hev, !app_nil_r. reflexivity.
Qed.

(** C4: when [A] is not square or its column dimension is not the
    dimension of [b], [gmres] fails in the shape check (the assertions of
    gmres.py:107-109, the ShapeError of the specification) before it
    applies any operator; when the dimensions match it does not fail with
    that error. *)
Theorem gmres_shape_check (a : Args) :
  if shapes_match a
  then fst (gmres a) <> Raise AssertionError
  else gmres a = (Raise AssertionError, []).
Proof.
  unfold gmres.
  destruct (iterate_gmres a) as [[l | e] t] eqn:E.
  - destruct (iterate_gmres_Ok _ E) as (-> & Inv & _).
    run_steps. rewrite (finish_gmres_run Inv). cbn [fst]. discriminate.
  - destruct (iterate_gmres_Raise _ E) as [(-> & -> & ->) | (-> & He)].
    + reflexivity.
    + cbn. intros H. inversion H; subst.
      destruct He as [[msg He] | [r He]]; discriminate.
Qed.

(** C1 (amended): when the norm of the preconditioned right-hand side is
    exactly zero, the tolerance is positive and the engine can be created,
    [gmres] returns the zero vector with the history [[0.0]] without
    entering the loop; the operator [A] is applied exactly once, for the
    initial residual, which is computed before the test on the norm. *)
Theorem gmres_zero_rhs (a : Args) (arn : arnoldi) :
  shapes_match a = true ->
  seqb (rhs_norm a) zero = true ->
  sltb zero (arg_tol a) = true ->
  fst (new_engine a) = Ok arn ->
  gmres a =
  (Ok (Some (zeros_like (arg_b a)),
       {| resnorms := [zero]; operations := count_operations 0 |}),
   start_events a)
  /\ count ApplyA (start_events a) = 1.
Proof.
  intros Hshape Hzero Htol Hnew. split; [| apply count_start_events].
  rewrite (gmres_without_iteration a Hshape Hnew).
  - cbn [entry_locals st_resnorms st_x0]. rewrite Hzero.
    unfold last_entry. cbn [last]. rewrite Htol. reflexivity.
  - unfold loop_test. cbn [entry_locals st_resnorms]. rewrite Hzero.
    unfold last_entry. cbn [last].
    destruct (sgtb zero (arg_tol a)) eqn:Hgt; [| reflexivity].
    apply sgtb_sltb in Hgt. congruence.
Qed.

(** C10: with [maxiter = 0], a right-hand side that is not zero and an
    initial relative residual above the tolerance, the loop is not entered
    and [gmres] returns [None] with a history of one entry, the initial
    relative residual; no exception is raised. *)
Theorem gmres_maxiter_zero (a : Args) (arn : arnoldi) :
  shapes_match a = true ->
  arg_maxiter a = Some 0 ->
  seqb (rhs_norm a) zero = false ->
  sgtb (initial_relres a) (arg_tol a) = true ->
  fst (new_engine a) = Ok arn ->
  gmres a =
  (Ok (None,
       {| resnorms := [initial_relres a]; operations := count_operations 0 |}),
   start_events a).
Proof.
  intros Hshape Hmax Hnz Hgt Hnew.
  assert (Hfresh : arn_iter arn = 0 /\ arn_maxiter arn = 0).
  { destruct (new_engine a) as [r t0] eqn:E. simpl in Hnew. subst r.
    destruct (new_engine_fresh _ E) as (Hi & Hm & _).
    unfold sanitized_maxiter in Hm. rewrite Hmax in Hm. auto. }
  destruct Hfresh as [Hi Hm].
  rewrite (gmres_without_iteration a Hshape Hnew).
  - cbn [entry_locals st_resnorms st_x0]. rewrite Hnz.
    unfold last_entry. cbn [last]. rewrite (sgtb_sltb _ _ Hgt). reflexivity.
  - unfold loop_test. cbn [entry_locals st_arnoldi]. rewrite Hi, Hm.
    rewrite andb_false_r. reflexivity.
Qed.

(** C2: a call that returns gives a pair whose first component is the
    solution reconstructed at the exit of the loop when the last entry of
    the returned history is below the tolerance, and [None] otherwise, a
    solution being held internally in both cases. *)
Theorem gmres_solution_iff_converged (a : Args) (sol : option vec)
    (info : KrylovInfo) (t : trace) :
  gmres a = (Ok (sol, info), t) ->
  exists l t1,
    iterate_gmres a = (Ok l, t1) /\
    resnorms info = st_resnorms l /\
    (sltb (last_entry (resnorms info)) (arg_tol a) = true ->
     sol = Some (solution_at_exit a l)) /\
    (sltb (last_entry (resnorms info)) (arg_tol a) = false -> sol = None) /\
    ((exists x, sol = Some x) <->
     sltb (last_entry (resnorms info)) (arg_tol a) = true).
Proof.
  intros H. destruct (gmres_Ok _ H) as (l & t1 & Hit & _ & -> & ->).
  exists l, t1. cbn [resnorms].
  split; [exact Hit |]. split; [reflexivity |].
  destruct (sltb _ _).
  - repeat split; try reflexivity; try discriminate. eauto.
  - repeat split; try reflexivity; try discriminate. intros [x Hx]. discriminate.
Qed.

(** C5: in an iteration with explicit-residual mode off whose updated
    relative residual [|y[k+1]| / MMlb_norm] is at or below the tolerance,
    the current solution is reconstructed, its residual is computed with one
    application of [A], and this explicit relative residual is the entry of
    the iteration in the history, which is what the next loop test reads. *)
Theorem explicit_residual_confirms (a : Args) (m : nat) (n : scalar)
    (l0 l : locals) (t0 : trace) :
  advance_and_rotate m l0 = (Ok l, t0) ->
  arg_use_explicit_residual a = false ->
  sleb (sdiv (sabs (nth (st_iter l + 1) (st_y l) zero)) n) (arg_tol a) = true ->
  let xk := reconstruct a l (firstn (st_iter l + 1) (st_y l)) in
  let explicit := sdiv (snd (residual a xk)) n in
  exists l' t,
    loop_body a m n l0 = (Ok l', t0 ++ t) /\
    st_resnorms l' = st_resnorms l0 ++ [explicit] /\
    last_entry (st_resnorms l') = explicit /\
    st_xk l' = Some xk /\
    count ApplyA t = 1.
Proof.
  intros Hadv Hmode Hle xk explicit.
  destruct (advance_and_rotate_Ok _ _ Hadv) as (_ & _ & _ & Hres & _).
  unfold loop_body. rewrite Hadv. run_steps.
  unfold update_residual. rewrite Hmode.
  destruct (arg_exact_solution a); run_steps; rewrite Hle; cbn [negb];
    run_steps; rewrite set_last_app, Hres;
    eexists; eexists; (split; [reflexivity |]);
    cbn [st_resnorms st_xk ensured fst snd];
    rewrite last_entry_app;
    repeat split;
    rewrite ?app_nil_r, ?count_app, ?count_reconstruct_events,
      ?count_residual_events; reflexivity.
Qed.

Lemma MlAMr_run (a : Args) (v : vec) :
  MlAMr a v =
  (op_value (arg_Ml a) (matvec (arg_A a) (op_value (arg_Mr a) v)),
   op_events ApplyMr (arg_Mr a) ++ [ApplyA] ++ op_events ApplyMl (arg_Ml a)).
Proof.
  unfold MlAMr. cbn. rewrite <- app_assoc. reflexivity.
Qed.

(** C6 (amended): the solution a call returns after [k >= 1] steps of the
    engine is [x0 + Mr @ sum(c * v for c, v in zip(yy, V[:-1]))], where
    [yy] solves [R[:k, :k] yy = y[:k]] and [x0] is the initial guess when
    the right-hand side is not zero.  [Mr] is applied in this
    reconstruction, after the triangular solve, and it is also the first
    operator applied whenever the Arnoldi engine applies its operator
    [Ml A Mr]. *)
Theorem gmres_solution_reconstruction (a : Args) (x : vec) (info : KrylovInfo)
    (t : trace) :
  gmres a = (Ok (Some x, info), t) ->
  exists l t1,
    iterate_gmres a = (Ok l, t1) /\
    (let k := arn_iter (st_arnoldi l) in
     1 <= k ->
     let yy := solve_triangular (leading_block k (st_R l)) (firstn k (st_y l)) in
     x = vadd (st_x0 l)
           (op_value (arg_Mr a)
              (py_sum (st_x0 l)
                 (map (fun cv => vscale (fst cv) (snd cv))
                      (combine yy (removelast (arn_V (st_arnoldi l)))))))
     /\ reconstruct_events a l = SolveTriangular :: op_events ApplyMr (arg_Mr a)) /\
    (seqb (rhs_norm a) zero = false -> st_x0 l = initial_guess a) /\
    (forall v,
       MlAMr a v =
       (op_value (arg_Ml a) (matvec (arg_A a) (op_value (arg_Mr a) v)),
        op_events ApplyMr (arg_Mr a) ++ [ApplyA] ++ op_events ApplyMl (arg_Ml a))).
Proof.
  intros H. destruct (gmres_Ok _ H) as (l & t1 & Hit & Inv & Hsol & _).
  exists l, t1. split; [exact Hit |]. split; [| split].
  - intros k Hk yy.
    destruct (sltb _ _); [| discriminate]. inversion Hsol; subst x.
    unfold solution_at_exit, reconstruct, reconstruct_events. fold k.
    assert (Hpos : (0 <? k) = true) by (apply Nat.ltb_lt; lia).
    rewrite Hpos, (inv_V Inv Hk). split; reflexivity.
  - intros Hnz. rewrite (inv_x0 Inv), Hnz. reflexivity.
  - apply MlAMr_run.
Qed.

(** C7 (amended): the operation counts a call returns are fixed functions
    of the index [n] of the last step made ([0] when none was made):
    [A: 1 + n], [M: 2 + n], [Ml: 2 + n], [Mr: 1 + n], whatever the
    preconditioners are; an identity preconditioner is counted like any
    other, so these counts are never zero. *)
Theorem gmres_operation_counts (a : Args) (sol : option vec) (info : KrylovInfo)
    (t : trace) :
  gmres a = (Ok (sol, info), t) ->
  exists l t1,
    iterate_gmres a = (Ok l, t1) /\
    operations info = count_operations (arn_iter (st_arnoldi l) - 1) /\
    2 <= op_M (operations info) /\
    2 <= op_Ml (operations info) /\
    1 <= op_Mr (operations info).
Proof.
  intros H. destruct (gmres_Ok _ H) as (l & t1 & Hit & Inv & _ & ->).
  exists l, t1. cbn [operations]. rewrite (inv_iter Inv).
  split; [exact Hit |]. split; [reflexivity |]. cbn. lia.
Qed.

(** The loop of [gmres] never runs out of passes. *)
Lemma gmres_loop_budget (a : Args) (n : scalar) (budget : nat) (l : locals) :
  loop_invariant a l ->
  arn_maxiter (st_arnoldi l) - arn_iter (st_arnoldi l) <= budget ->
  fst (gmres_loop a (sanitized_maxiter a) n budget l) <> Raise LoopBudget.
Proof.
  intros Inv Hb.
  destruct (gmres_loop _ _ _ _ _) as [[l' | e] t] eqn:E; [discriminate |].
  cbn. intros H. inversion H; subst.
  eapply gmres_loop_Raise in E; [| exact Inv | exact Hb].
  destruct E as [[msg He] | [r He]]; discriminate.
Qed.

(** X19: the last permitted iteration, when its relative residual is above the
    tolerance, ends in a [ConvergenceError] made of the iteration limit and
    of that residual, whether or not the basis was to be retained. *)
Lemma last_iteration_raises (a : Args) (m : nat) (n : scalar) (l : locals) :
  arg_exact_solution a = None ->
  arg_use_explicit_residual a = false ->
  sleb (sdiv (sabs (nth (st_iter l + 1) (st_y l) zero)) n) (arg_tol a) = false ->
  st_iter l + 1 = m ->
  update_residual a m n l =
  (Raise (ConvergenceError m (sdiv (sabs (nth (st_iter l + 1) (st_y l) zero)) n)),
   []).
Proof.
  intros Hex Hmode Hle Hm. unfold update_residual.
  rewrite Hex, Hmode. run_steps. rewrite Hle.
  apply Nat.eqb_eq in Hm. rewrite Hm. rewrite last_entry_app. reflexivity.
Qed.

End DriverProperties.

(** ** Facts about the restart wrapper *)

Section RestartProperties.
Context {NK : Numeric}.

Lemma accumulated_snoc (hs : list (list scalar)) (h : list scalar) :
  accumulated (hs ++ [h]) = removelast (accumulated hs) ++ h.
Proof. unfold accumulated. rewrite fold_left_app. reflexivity. Qed.

Lemma kept_history_cons (h h' : list scalar) (r : list (list scalar)) :
  kept_history (h :: h' :: r) = removelast h ++ kept_history (h' :: r).
Proof.
  unfold kept_history.
  change (removelast (h :: h' :: r)) with (h :: removelast (h' :: r)).
  change (last (h :: h' :: r) []) with (last (h' :: r) []).
  cbn [map concat]. rewrite app_assoc. reflexivity.
Qed.

Lemma fold_kept_history (hs : list (list scalar)) :
  forall acc, hs <> [] -> Forall nonempty hs ->
  fold_left (fun acc h => removelast acc ++ h) hs acc =
  removelast acc ++ kept_history hs.
Proof.
  induction hs as [| h r IH]; intros acc Hne Hall; [congruence |].
  inversion Hall as [| ? ? Hh Hr]; subst.
  destruct r as [| h' r'].
  - cbn. unfold kept_history. cbn. reflexivity.
  - change (fold_left (fun acc h => removelast acc ++ h) (h :: h' :: r') acc)
      with (fold_left (fun acc h => removelast acc ++ h) (h' :: r')
              (removelast acc ++ h)).
    rewrite IH; [| discriminate | exact Hr].
    rewrite kept_history_cons, removelast_app by exact Hh.
    rewrite app_assoc. reflexivity.
Qed.

(** With no empty history, the loop keeps every run's history but its last
    entry, and the last run's whole. *)
Lemma accumulated_kept_history (hs : list (list scalar)) :
  hs <> [] -> Forall nonempty hs -> accumulated hs = kept_history hs.
Proof.
  intros Hne Hall. unfold accumulated. rewrite fold_kept_history by assumption.
  reflexivity.
Qed.

(** When every run starts at the entry the run before it ended with, this is
    the list of the specification. *)
Lemma kept_history_claimed (hs : list (list scalar)) :
  chained hs -> kept_history hs = claimed_history hs.
Proof.
  induction hs as [| h r IH]; intros Hch; [reflexivity |].
  destruct r as [| h' r'].
  - unfold kept_history. cbn. rewrite app_nil_r. reflexivity.
  - destruct Hch as [(x & p & q & -> & ->) Hch].
    rewrite kept_history_cons, IH by exact Hch.
    rewrite removelast_last. cbn. rewrite <- !app_assoc. reflexivity.
Qed.

Section Wrapper.
Variables (LinearSystem Opts Exn : Type).
Variable exact_solution : LinearSystem -> option vec.
Variable Solver : LinearSystem -> kwargs Opts -> solver_result Exn.
Variable linear_system : LinearSystem.
Variable max_restarts : nat.

Local Notation "'pass'" :=
  (@restart_pass NK LinearSystem Opts Exn exact_solution Solver linear_system).
Local Notation "'loop'" :=
  (@restart_loop NK LinearSystem Opts Exn exact_solution Solver linear_system
     max_restarts).
Local Notation "'test'" := (@restart_test NK Opts Exn max_restarts).

Lemma del_last_extend_inr (l more r : list scalar) :
  @del_last_extend NK Exn l more = inr r -> r = removelast l ++ more.
Proof. unfold del_last_extend. destruct l; intros H; inversion H; reflexivity. Qed.

Lemma absorb_run_invariant (st st' : restart_state Opts) (kw : kwargs Opts)
    (sol : solver) :
  restart_invariant exact_solution linear_system st ->
  @absorb_run NK LinearSystem Opts Exn exact_solution linear_system st kw sol
  = inr st' ->
  restart_invariant exact_solution linear_system st' /\
  rs_restart st' = rs_restart st + 1.
Proof.
  intros [Hres Herr Hruns]. unfold absorb_run.
  destruct (del_last_extend Exn (self_resnorms (rs_self st)) (sol_resnorms sol))
    as [e | rn] eqn:Ern; [discriminate |].
  apply del_last_extend_inr in Ern.
  rewrite Herr.
  destruct (exact_solution linear_system) as [ex |] eqn:Eex.
  - destruct (del_last_extend Exn _ (sol_errnorms sol)) as [e | en] eqn:Een;
      [discriminate |].
    apply del_last_extend_inr in Een.
    intros H. inversion H; subst; clear H. split; [| reflexivity].
    constructor; cbn [rs_self self_resnorms self_errnorms self_runs rs_restart].
    + rewrite map_app; cbn [map]; rewrite accumulated_snoc, <- Hres. reflexivity.
    + rewrite Eex, map_app; cbn [map]; rewrite accumulated_snoc. reflexivity.
    + rewrite length_app. cbn [length]. lia.
  - intros H. inversion H; subst; clear H. split; [| reflexivity].
    constructor; cbn [rs_self self_resnorms self_errnorms self_runs rs_restart].
    + rewrite map_app; cbn [map]; rewrite accumulated_snoc, <- Hres. reflexivity.
    + rewrite Eex. reflexivity.
    + rewrite length_app. cbn [length]. lia.
Qed.

Lemma restart_pass_invariant (st st' : restart_state Opts) :
  restart_invariant exact_solution linear_system st -> pass st = inr st' ->
  restart_invariant exact_solution linear_system st' /\
  rs_restart st' = rs_restart st + 1.
Proof.
  intros Inv. unfold restart_pass.
  destruct (Solver linear_system _) as [sol | sol | e];
    [apply absorb_run_invariant, Inv | apply absorb_run_invariant, Inv |].
  discriminate.
Qed.

Lemma restart_loop_invariant (budget : nat) :
  forall st st',
  restart_invariant exact_solution linear_system st -> loop budget st = inr st' ->
  restart_invariant exact_solution linear_system st' /\ rs_restart st' <> 0.
Proof.
  induction budget as [| budget IH]; intros st st' Inv H; cbn in H;
    destruct (test st) as [e | [|]] eqn:Et; try discriminate.
  - inversion H; subst. split; [exact Inv |].
    unfold restart_test in Et. destruct (rs_restart st' =? 0) eqn:E0.
    + discriminate.
    + apply Nat.eqb_neq in E0. exact E0.
  - destruct (pass st) as [e | st1] eqn:Ep; [discriminate |].
    destruct (restart_pass_invariant Inv Ep) as [Inv1 _].
    exact (IH st1 st' Inv1 H).
  - inversion H; subst. split; [exact Inv |].
    unfold restart_test in Et. destruct (rs_restart st' =? 0) eqn:E0.
    + discriminate.
    + apply Nat.eqb_neq in E0. exact E0.
Qed.

Lemma above_tol_inl (self : restarted) (tol : option scalar) (e : restart_error Exn) :
  above_tol Exn self tol = inl e -> pass_error e.
Proof.
  unfold above_tol, py_last.
  destruct (rev _); [intros H; inversion H; exact I |].
  destruct tol; intros H; inversion H; exact I.
Qed.

Lemma restart_test_inl (st : restart_state Opts) (e : restart_error Exn) :
  test st = inl e -> pass_error e.
Proof.
  unfold restart_test.
  destruct (rs_restart st =? 0); [discriminate |].
  destruct (above_tol _ _ _) as [e' | c] eqn:Ea; [| discriminate].
  intros H; inversion H; subst. exact (above_tol_inl _ _ Ea).
Qed.

Lemma restart_pass_inl (st : restart_state Opts) (e : restart_error Exn) :
  pass st = inl e -> pass_error e.
Proof.
  unfold restart_pass, absorb_run, del_last_extend.
  destruct (Solver linear_system _) as [sol | sol | e0];
    try (intros H; inversion H; exact I);
    (destruct (self_resnorms (rs_self st)); [intros H; inversion H; exact I |]);
    (destruct (exact_solution linear_system); [| discriminate]);
    (destruct (self_errnorms (rs_self st)) as [[| x errs] |]);
    intros H; inversion H; exact I.
Qed.

Lemma restart_loop_inl (budget : nat) :
  forall st e, loop budget st = inl e -> pass_error e \/ e = RestartBudget.
Proof.
  induction budget as [| budget IH]; intros st e; cbn;
    destruct (test st) as [e' | [|]] eqn:Et; try discriminate;
    try (intros H; inversion H; subst; left; exact (restart_test_inl _ Et)).
  - intros H; inversion H. right. reflexivity.
  - destruct (pass st) as [e' | st1] eqn:Ep; [| apply IH].
    intros H; inversion H; subst. left. exact (restart_pass_inl _ Ep).
Qed.

(** The loop never runs out of passes: [max_restarts + 1] are enough. *)
Lemma restart_loop_budget (budget : nat) :
  forall st, restart_invariant exact_solution linear_system st ->
  max_restarts + 1 - rs_restart st <= budget ->
  loop budget st <> inl RestartBudget.
Proof.
  induction budget as [| budget IH]; intros st Inv Hb; cbn;
    destruct (test st) as [e | [|]] eqn:Et;
    try discriminate;
    try (intros H; inversion H; subst; exact (restart_test_inl _ Et)).
  - exfalso. unfold restart_test in Et. destruct (rs_restart st =? 0) eqn:E0.
    + apply Nat.eqb_eq in E0. lia.
    + destruct (above_tol _ _ _) as [e | c]; [discriminate |].
      inversion Et as [Hc]. apply andb_true_iff in Hc. destruct Hc as [_ Hle].
      apply Nat.leb_le in Hle. lia.
  - destruct (pass st) as [e | st1] eqn:Ep.
    + intros H; inversion H; subst. exact (restart_pass_inl _ Ep).
    + destruct (restart_pass_invariant Inv Ep) as [Inv1 Hstep].
      apply IH; [exact Inv1 | lia].
Qed.

(** The constructor never fails for lack of passes. *)
Lemma RestartedSolver_budget (kw : kwargs Opts) :
  @_RestartedSolver NK LinearSystem Opts Exn exact_solution Solver
    linear_system max_restarts kw <> inl RestartBudget.
Proof.
  unfold _RestartedSolver.
  destruct (restart_loop _ _ _ _ _ _) as [e | st] eqn:El.
  - intros H. inversion H; subst. revert El. apply restart_loop_budget.
    + constructor;
        cbn [rs_self self_resnorms self_errnorms self_runs rs_restart map length].
      * reflexivity.
      * destruct (exact_solution linear_system); reflexivity.
      * reflexivity.
    + cbn [rs_restart]. lia.
  - destruct (above_tol _ _ _) as [e | [|]] eqn:Ea; try discriminate.
    intros H. inversion H; subst. exact (above_tol_inl _ _ Ea).
Qed.

(** C8 (amended): when the wrapper is built, or fails for lack of
    convergence, the residual history it holds is what the loop accumulates
    from the histories of its runs: before a run's history is appended, the
    last entry held is deleted (the placeholder before the first run, the
    final entry of the previous run afterwards).  With no empty history this
    is every run's history without its final entry followed by the last
    run's whole history, and it is the first run's history followed by the
    later ones without their leading entries whenever every run starts at
    the entry the run before it ended with.  The same holds for the error
    history when an exact solution is tracked. *)
Theorem restarted_history (kw : kwargs Opts) (self : restarted) :
  @_RestartedSolver NK LinearSystem Opts Exn exact_solution Solver
    linear_system max_restarts kw = inr self \/
  @_RestartedSolver NK LinearSystem Opts Exn exact_solution Solver
    linear_system max_restarts kw = inl (NoConvergence max_restarts self) ->
  let rs := map sol_resnorms (self_runs self) in
  let es := map sol_errnorms (self_runs self) in
  self_runs self <> [] /\
  self_resnorms self = accumulated rs /\
  (Forall nonempty rs -> self_resnorms self = kept_history rs) /\
  (Forall nonempty rs -> chained rs -> self_resnorms self = claimed_history rs) /\
  (exact_solution linear_system <> None ->
   self_errnorms self = Some (accumulated es) /\
   (Forall nonempty es -> self_errnorms self = Some (kept_history es)) /\
   (Forall nonempty es -> chained es ->
    self_errnorms self = Some (claimed_history es))).
Proof.
  intros H rs es.
  assert (Hst : exists st,
             loop (max_restarts + 1)
               {| rs_self :=
                    {| self_xk := None; self_resnorms := [infinity];
                       self_errnorms :=
                         match exact_solution linear_system with
                         | Some _ => Some [infinity]
                         | None => None
                         end;
                       self_runs := [] |};
                  rs_kwargs := kw; rs_tol := None; rs_restart := 0 |} = inr st
             /\ rs_self st = self).
  { unfold _RestartedSolver in H.
    destruct (restart_loop _ _ _ _ _ _) as [e | st] eqn:El.
    - destruct H as [H | H]; [discriminate |].
      inversion H; subst.
      destruct (restart_loop_inl _ _ El) as [[] | He]. discriminate.
    - exists st. split; [reflexivity |].
      destruct (above_tol _ _ _) as [e | [|]] eqn:Ea; destruct H as [H | H];
        inversion H; subst; try reflexivity.
      destruct (above_tol_inl _ _ Ea). }
  destruct Hst as (st & Hloop & <-).
  apply restart_loop_invariant in Hloop.
  2:{ constructor; cbn [rs_self self_resnorms self_errnorms self_runs rs_restart
                        map length].
      - reflexivity.
      - destruct (exact_solution linear_system); reflexivity.
      - reflexivity. }
  destruct Hloop as [[Hres Herr Hruns] Hne].
  assert (Hruns' : self_runs (rs_self st) <> []).
  { intros Hnil. rewrite Hnil in Hruns. cbn in Hruns. congruence. }
  assert (Hrs : rs <> []).
  { subst rs. destruct (self_runs (rs_self st)); [congruence | discriminate]. }
  assert (Hes : es <> []).
  { subst es. destruct (self_runs (rs_self st)); [congruence | discriminate]. }
  split; [exact Hruns' |]. split; [exact Hres |].
  split; [| split].
  - intros Hall. rewrite Hres. apply accumulated_kept_history; assumption.
  - intros Hall Hch. rewrite Hres, <- kept_history_claimed by exact Hch.
    apply accumulated_kept_history; assumption.
  - intros Hex. rewrite Herr.
    destruct (exact_solution linear_system); [| congruence].
    split; [reflexivity |]. split.
    + intros Hall. f_equal. apply accumulated_kept_history; assumption.
    + intros Hall Hch. f_equal. rewrite <- kept_history_claimed by exact Hch.
      apply accumulated_kept_history; assumption.
Qed.

End Wrapper.
End RestartProperties.

(** ** Further properties of the driver *)

Section DriverHistoryProperties.
Context {NK : Numeric} {KC : Collaborators}.

#[local] Hint Rewrite @get_residual_and_norm_run @get_residual_norm_run
  @_get_xk_run @ensure_xk_run : run.

(** A successful second half of the body appends one entry. *)
Lemma update_residual_history (a : Args) (m : nat) (n : scalar) (l l' : locals)
    (t : trace) :
  update_residual a m n l = (Ok l', t) ->
  exists v, st_resnorms l' = st_resnorms l ++ [v].
Proof.
  unfold update_residual.
  destruct (arg_exact_solution a); destruct (arg_use_explicit_residual a);
    run_steps; destruct (sleb _ _); cbn [negb]; run_steps;
    try destruct (_ =? m); try discriminate;
    intros H; inversion H; subst; cbn [st_resnorms];
    rewrite ?set_last_app; eexists; reflexivity.
Qed.

Lemma loop_test_true (a : Args) (l : locals) :
  loop_test a l = true ->
  sgtb (last_entry (st_resnorms l)) (arg_tol a) = true /\
  arn_iter (st_arnoldi l) < arn_maxiter (st_arnoldi l) /\
  arn_invariant (st_arnoldi l) = false.
Proof.
  unfold loop_test. intros H.
  apply andb_true_iff in H. destruct H as [H Hinv].
  apply andb_true_iff in H. destruct H as [Hgt Hlt].
  apply Nat.ltb_lt in Hlt. apply negb_true_iff in Hinv. auto.
Qed.

Lemma entry_history (a : Args) (arn : arnoldi) (t : trace) :
  new_engine a = (Ok arn, t) -> history_invariant a (entry_locals a arn).
Proof.
  intros H. destruct (new_engine_fresh _ H) as (Hi & _ & _).
  constructor; unfold entry_locals; cbn [st_resnorms st_arnoldi].
  - rewrite Hi. destruct (seqb _ _); reflexivity.
  - rewrite Hi. lia.
  - destruct (seqb _ _); constructor.
Qed.

Lemma loop_body_history (a : Args) (n : scalar) (l l' : locals) (t : trace) :
  loop_invariant a l -> history_invariant a l -> loop_test a l = true ->
  loop_body a (sanitized_maxiter a) n l = (Ok l', t) ->
  history_invariant a l'.
Proof.
  intros Inv Hist Htest H.
  destruct (loop_test_true _ _ Htest) as (Hgt & Hlt & _).
  unfold loop_body in H.
  apply bind_inv_Ok in H. destruct H as (l1 & t1 & t2 & H1 & H2 & _).
  apply advance_and_rotate_Ok in H1.
  destruct H1 as (Hadv & _ & _ & Hres & _).
  apply advance_iter in Hadv. destruct Hadv as [Hstep _].
  destruct (update_residual_history _ _ _ _ H2) as [v Hv].
  apply update_residual_Ok in H2. destruct H2 as (Ha & _).
  constructor.
  - rewrite Hv, Hres, length_app, Ha, Hstep, (hist_length Hist). cbn. lia.
  - rewrite Ha, Hstep. rewrite (inv_maxiter Inv) in Hlt. lia.
  - rewrite Hv, Hres, removelast_last.
    rewrite (app_removelast_last zero (inv_resnorms Inv)).
    apply Forall_app. split; [apply Hist |].
    constructor; [exact Hgt | constructor].
Qed.

Lemma gmres_loop_history (a : Args) (n : scalar) (budget : nat) :
  forall (l l' : locals) (t : trace),
  loop_invariant a l -> history_invariant a l ->
  gmres_loop a (sanitized_maxiter a) n budget l = (Ok l', t) ->
  history_invariant a l'.
Proof.
  induction budget as [| budget IH]; intros l l' t Inv Hist H; simpl in H;
    destruct (loop_test a l) eqn:Htest; try discriminate;
    try (inversion H; subst; exact Hist).
  apply bind_inv_Ok in H. destruct H as (l1 & t1 & t2 & H1 & H2 & _).
  apply (IH l1 l' t2); [| | exact H2].
  - eapply loop_body_Ok; eauto.
  - eapply loop_body_history; eauto.
Qed.

Lemma iterate_gmres_history (a : Args) (l : locals) (t : trace) :
  iterate_gmres a = (Ok l, t) -> history_invariant a l.
Proof.
  intros H. destruct (iterate_gmres_Ok _ H) as (_ & _ & _ & arn & t' & Hnew & Hloop & _).
  eapply gmres_loop_history; [| | exact Hloop].
  - exact (entry_invariant _ Hnew).
  - exact (entry_history _ Hnew).
Qed.

(** X1: a call that returns has made at most [maxiter] steps of the engine,
    and its history holds one entry per step and the initial one. *)
Theorem gmres_history_length (a : Args) (sol : option vec) (info : KrylovInfo)
    (t : trace) :
  gmres a = (Ok (sol, info), t) ->
  exists l t1,
    iterate_gmres a = (Ok l, t1) /\
    arn_iter (st_arnoldi l) <= sanitized_maxiter a /\
    length (resnorms info) = arn_iter (st_arnoldi l) + 1 /\
    1 <= length (resnorms info) <= sanitized_maxiter a + 1.
Proof.
  intros H. destruct (gmres_Ok _ H) as (l & t1 & Hit & _ & _ & ->).
  pose proof (iterate_gmres_history _ Hit) as Hist.
  exists l, t1. cbn [resnorms].
  pose proof (hist_length Hist). pose proof (hist_steps Hist).
  repeat split; try assumption; lia.
Qed.

(** X2: in the history a call returns, every entry but the last is above
    the tolerance: the tolerance can only be met by the last entry. *)
Theorem gmres_history_above_tolerance (a : Args) (sol : option vec)
    (info : KrylovInfo) (t : trace) :
  gmres a = (Ok (sol, info), t) ->
  Forall (fun r => sgtb r (arg_tol a) = true) (removelast (resnorms info)).
Proof.
  intros H. destruct (gmres_Ok _ H) as (l & t1 & Hit & _ & _ & ->).
  exact (hist_above (iterate_gmres_history _ Hit)).
Qed.

(** X3: a call returns only when the loop test fails: the last entry of the
    history is not above the tolerance, or the engine has made all its
    [maxiter] steps, or it has found an invariant subspace. *)
Theorem gmres_exit_reason (a : Args) (sol : option vec) (info : KrylovInfo)
    (t : trace) :
  gmres a = (Ok (sol, info), t) ->
  exists l t1,
    iterate_gmres a = (Ok l, t1) /\
    (sgtb (last_entry (resnorms info)) (arg_tol a) = false \/
     arn_iter (st_arnoldi l) = sanitized_maxiter a \/
     arn_invariant (st_arnoldi l) = true).
Proof.
  intros H. destruct (gmres_Ok _ H) as (l & t1 & Hit & Inv & _ & ->).
  pose proof (iterate_gmres_history _ Hit) as Hist.
  destruct (iterate_gmres_Ok _ Hit) as (_ & _ & Htest & _).
  exists l, t1. split; [exact Hit |]. cbn [resnorms].
  unfold loop_test in Htest.
  destruct (sgtb _ _); [| left; reflexivity].
  destruct (arn_invariant _); [right; right; reflexivity |].
  cbn in Htest. rewrite andb_true_r in Htest. apply Nat.ltb_ge in Htest.
  right; left. pose proof (hist_steps Hist). rewrite (inv_maxiter Inv) in Htest. lia.
Qed.

End DriverHistoryProperties.

Section DriverErrorProperties.
Context {NK : Numeric} {KC : Collaborators}.

#[local] Hint Rewrite @get_residual_and_norm_run @get_residual_norm_run
  @_get_xk_run @ensure_xk_run : run.

(** The first half of the body never raises [ConvergenceError]. *)
Lemma advance_and_rotate_not_convergence (m : nat) (l : locals) (p : nat)
    (r : scalar) (t : trace) :
  advance_and_rotate m l <> (Raise (ConvergenceError p r), t).
Proof.
  unfold advance_and_rotate. intros H.
  destruct (advance (st_arnoldi l)) as [[arn | e0] t0] eqn:Eadv.
  2:{ unfold bind in H. inversion H; subst.
      destruct (advance_raises _ Eadv) as [msg Hmsg]. discriminate. }
  revert H. run_steps.
  destruct (arn_iter (st_arnoldi l) <? m); [| discriminate].
  run_steps.
  match goal with
  | |- context [for_each ?xs _ ?R] =>
      destruct (for_each_rotations_cases (st_G l) (arn_iter (st_arnoldi l)) xs R)
        as [[R' HR'] | HR']; rewrite HR'
  end; [| discriminate].
  run_steps.
  match goal with
  | |- context [py_index ?G ?k] =>
      destruct (py_index_cases G k) as [[_ [g ->]] | [_ ->]]
  end; run_steps; discriminate.
Qed.

(** The [ConvergenceError] of the second half is raised in the iteration
    whose index is [maxiter - 1], and carries [maxiter] and a relative
    residual that is not at or below the tolerance. *)
Lemma update_residual_convergence (a : Args) (m : nat) (n : scalar) (l : locals)
    (p : nat) (r : scalar) (t : trace) :
  update_residual a m n l = (Raise (ConvergenceError p r), t) ->
  p = m /\ st_iter l + 1 = m /\ sleb r (arg_tol a) = false.
Proof.
  unfold update_residual.
  destruct (arg_exact_solution a); destruct (arg_use_explicit_residual a);
    run_steps;
    match goal with
    | |- context [sleb ?x ?y] => destruct (sleb x y) eqn:Hle
    end; cbn [negb]; run_steps;
    try discriminate;
    match goal with
    | |- context [?k =? m] => destruct (k =? m) eqn:Hk
    end; try discriminate;
    intros H; inversion H; subst;
    rewrite last_entry_app; apply Nat.eqb_eq in Hk; auto.
Qed.

Lemma gmres_loop_convergence (a : Args) (m : nat) (n : scalar) (budget : nat) :
  forall (l : locals) (p : nat) (r : scalar) (t : trace),
  gmres_loop a m n budget l = (Raise (ConvergenceError p r), t) ->
  p = m /\ 1 <= m /\ sleb r (arg_tol a) = false.
Proof.
  induction budget as [| budget IH]; intros l p r t H; simpl in H;
    destruct (loop_test a l); try discriminate.
  apply bind_inv_Raise in H. destruct H as [H | (l1 & t1 & t2 & _ & H & _)].
  - unfold loop_body in H. apply bind_inv_Raise in H.
    destruct H as [H | (l1 & t1 & t2 & _ & H & _)].
    + exfalso. exact (advance_and_rotate_not_convergence _ _ H).
    + apply update_residual_convergence in H. destruct H as (-> & Hm & Hle).
      repeat split; [lia | exact Hle].
  - exact (IH _ _ _ _ H).
Qed.

(** X4: when [gmres] raises [ConvergenceError], the iteration limit is at
    least 1, the error carries this limit, and the relative residual it
    carries is not at or below the tolerance. *)
Theorem gmres_convergence_error (a : Args) (p : nat) (r : scalar) (t : trace) :
  gmres a = (Raise (ConvergenceError p r), t) ->
  p = sanitized_maxiter a /\ 1 <= sanitized_maxiter a /\
  sleb r (arg_tol a) = false.
Proof.
  unfold gmres. intros H.
  apply bind_inv_Raise in H. destruct H as [H | (l & t1 & t2 & H1 & H2 & _)].
  - unfold iterate_gmres in H. rewrite check_shapes_run, start_gmres_run in H.
    destruct (shapes_match a); [| discriminate].
    destruct (new_engine a) as [[arn | e0] t0] eqn:E.
    + revert H. run_steps.
      destruct (gmres_loop _ _ _ _ _) as [[l1 | e1] t1] eqn:El; [discriminate |].
      cbn [fst snd]. intros H. inversion H; subst.
      exact (gmres_loop_convergence _ _ _ _ _ El).
    + revert H. run_steps. intros H. inversion H; subst.
      destruct (new_engine_raises _ E) as [msg Hmsg]. discriminate.
  - destruct (iterate_gmres_Ok _ H1) as (_ & Inv & _).
    rewrite (finish_gmres_run Inv) in H2. discriminate.
Qed.

(** X6: every call that passes the shape check starts with the same
    applications, whatever happens afterwards: [A], then [Ml] and [M] for
    the initial residual, then [Ml] and [M] for the right-hand side (the
    identity and [None] apply nothing).  In particular [A] is applied at
    least once. *)
Theorem gmres_setup_applications (a : Args) :
  shapes_match a = true ->
  exists t', snd (gmres a) = start_events a ++ t' /\
             1 <= count ApplyA (snd (gmres a)).
Proof.
  intros Hshape.
  assert (Hpre : exists t', snd (gmres a) = start_events a ++ t').
  { unfold gmres, iterate_gmres.
    rewrite check_shapes_run, Hshape, start_gmres_run.
    destruct (new_engine a) as [[arn | e0] t0]; run_steps.
    - destruct (gmres_loop _ _ _ _ _) as [[l1 | e1] t1]; run_steps.
      + rewrite <- !app_assoc. eexists. reflexivity.
      + rewrite <- !app_assoc. eexists. reflexivity.
    - eexists. reflexivity. }
  destruct Hpre as [t' Ht']. exists t'. split; [exact Ht' |].
  rewrite Ht', count_app, count_start_events. lia.
Qed.

(** X7: the second half of a pass applies [A] once when the explicit
    residual is forced or the updated residual is at or below the
    tolerance, and not at all otherwise: the explicit residual is never
    computed twice in a pass. *)
Theorem update_residual_applications (a : Args) (m : nat) (n : scalar)
    (l : locals) :
  count ApplyA (snd (update_residual a m n l)) =
  if arg_use_explicit_residual a
     || sleb (sdiv (sabs (nth (st_iter l + 1) (st_y l) zero)) n) (arg_tol a)
  then 1 else 0.
Proof.
  unfold update_residual.
  destruct (arg_exact_solution a); destruct (arg_use_explicit_residual a);
    run_steps; destruct (sleb _ _); cbn [negb orb]; run_steps;
    try destruct (_ =? m); cbn [snd ensured fst];
    rewrite ?app_nil_r, ?count_app, ?count_reconstruct_events,
      ?count_residual_events; reflexivity.
Qed.

Lemma count_reconstruct_events_solve (a : Args) (l : locals) :
  count SolveTriangular (reconstruct_events a l) <= 1.
Proof.
  unfold reconstruct_events. destruct (0 <? _); [| cbn; lia].
  change (SolveTriangular :: ?t) with ([SolveTriangular] ++ t).
  rewrite count_app, count_op_events_other by reflexivity. cbn. lia.
Qed.

Lemma count_residual_events_solve (a : Args) :
  count SolveTriangular (residual_events a) = 0.
Proof.
  unfold residual_events. change (ApplyA :: ?t) with ([ApplyA] ++ t).
  rewrite !count_app, !count_op_events_other by reflexivity. reflexivity.
Qed.

(** X8: the second half of a pass reconstructs the solution at most once,
    even when the error norm, the forced explicit residual and the
    confirmation of convergence all need it. *)
Theorem update_residual_reconstructions (a : Args) (m : nat) (n : scalar)
    (l : locals) :
  count SolveTriangular (snd (update_residual a m n l)) <= 1.
Proof.
  pose proof (count_reconstruct_events_solve a l) as Hrec.
  unfold update_residual.
  destruct (arg_exact_solution a); destruct (arg_use_explicit_residual a);
    run_steps; destruct (sleb _ _); cbn [negb orb]; run_steps;
    try destruct (_ =? m); cbn [snd ensured fst];
    rewrite ?app_nil_r, ?count_app, ?count_residual_events_solve;
    cbn [count filter length]; lia.
Qed.

End DriverErrorProperties.

Section DiagnosticsProperties.
Context {NK : Numeric} {KC : Collaborators}.

#[local] Hint Rewrite @get_residual_and_norm_run @get_residual_norm_run
  @_get_xk_run @ensure_xk_run : run.

Lemma fst_bind {X Y} (c : Run X) (k : X -> Run Y) :
  fst (bind c k) =
  match fst c with
  | Ok x => fst (k x)
  | Raise e => Raise e
  end.
Proof.
  unfold bind. destruct c as [[x | e] t]; [| reflexivity].
  cbn [fst]. destruct (k x) as [r t'] eqn:E. reflexivity.
Qed.

Lemma loop_test_same (a : Args) (l l0 : locals) :
  same_but_diagnostics l l0 ->
  loop_test (without_exact_solution a) l0 = loop_test a l.
Proof.
  intros [_ Harn _ Hres _ _ _ _]. unfold loop_test.
  rewrite Harn, Hres. reflexivity.
Qed.

Lemma advance_and_rotate_same (m : nat) (l l0 : locals) :
  same_but_diagnostics l l0 ->
  same_outcome (fst (advance_and_rotate m l)) (fst (advance_and_rotate m l0)).
Proof.
  destruct l, l0. intros [H1 H2 H3 H4 H5 H6 H7 H8]. cbn in *. subst.
  unfold advance_and_rotate. cbn [st_arnoldi st_G st_R st_y st_x0 st_iter
                                  st_resnorms st_errnorms st_V st_xk].
  destruct (advance _) as [[arn | e0] t0]; [| cbn; reflexivity].
  run_steps.
  destruct (arn_iter _ <? m); [| cbn; reflexivity].
  run_steps.
  match goal with
  | |- context [for_each ?xs (previous_rotation ?G ?k) ?R] =>
      destruct (for_each_rotations_cases G k xs R)
        as [[R' HR'] | HR']; rewrite !HR'
  end; [| cbn; reflexivity].
  run_steps.
  match goal with
  | |- context [py_index ?G ?k] =>
      destruct (py_index_cases G k) as [[_ [g ->]] | [_ ->]]
  end; run_steps; cbn; [| reflexivity].
  constructor; reflexivity.
Qed.

Lemma ensured_same (a : Args) (l l0 : locals) (xk : option vec)
    (yk : list scalar) :
  same_but_diagnostics l l0 ->
  ensured (without_exact_solution a) l0 xk yk = ensured a l xk yk.
Proof.
  intros [H1 H2 _ _ _ H6 _ H8]. unfold ensured, reconstruct, reconstruct_events.
  rewrite <- H1, <- H2, <- H6, <- H8. reflexivity.
Qed.

Lemma update_residual_same (a : Args) (m : nat) (n : scalar) (l l0 : locals) :
  same_but_diagnostics l l0 ->
  same_outcome (fst (update_residual a m n l))
    (fst (update_residual (without_exact_solution a) m n l0)).
Proof.
  intros Hsim. pose proof (fun xk yk => ensured_same a xk yk Hsim) as Hens.
  destruct Hsim as [H1 H2 H3 H4 H5 H6 H7 H8].
  unfold update_residual.
  cbn [without_exact_solution arg_exact_solution arg_use_explicit_residual
       arg_tol arg_store_arnoldi].
  rewrite <- H3, <- H4, <- H7.
  destruct (arg_exact_solution a); destruct (arg_use_explicit_residual a);
    run_steps; rewrite ?Hens;
    change (residual (without_exact_solution a)) with (residual a);
    cbn [negb ensured fst snd];
    destruct (sleb _ _); run_steps; rewrite ?Hens; cbn [ensured fst snd];
    change (residual (without_exact_solution a)) with (residual a);
    try destruct (_ =? m); cbn [same_outcome fst];
    first [reflexivity | constructor; cbn; congruence].
Qed.

Lemma loop_body_same (a : Args) (m : nat) (n : scalar) (l l0 : locals) :
  same_but_diagnostics l l0 ->
  same_outcome (fst (loop_body a m n l))
    (fst (loop_body (without_exact_solution a) m n l0)).
Proof.
  intros Hsim. unfold loop_body. rewrite !fst_bind.
  pose proof (advance_and_rotate_same m Hsim) as Hadv.
  destruct (fst (advance_and_rotate m l)) as [l1 | e];
    destruct (fst (advance_and_rotate m l0)) as [l2 | e0]; cbn in Hadv;
    try contradiction.
  - apply update_residual_same. exact Hadv.
  - exact Hadv.
Qed.

Lemma gmres_loop_same (a : Args) (m : nat) (n : scalar) (budget : nat) :
  forall l l0 : locals,
  same_but_diagnostics l l0 ->
  same_outcome (fst (gmres_loop a m n budget l))
    (fst (gmres_loop (without_exact_solution a) m n budget l0)).
Proof.
  induction budget as [| budget IH]; intros l l0 Hsim; cbn [gmres_loop];
    rewrite (loop_test_same a Hsim); destruct (loop_test a l);
    try (cbn; first [reflexivity | exact Hsim]).
  rewrite !fst_bind.
  pose proof (loop_body_same a m n Hsim) as Hbody.
  destruct (fst (loop_body a m n l)) as [l1 | e];
    destruct (fst (loop_body (without_exact_solution a) m n l0)) as [l2 | e0];
    cbn in Hbody; try contradiction.
  - apply IH. exact Hbody.
  - exact Hbody.
Qed.

Lemma iterate_gmres_same (a : Args) :
  same_outcome (fst (iterate_gmres a))
    (fst (iterate_gmres (without_exact_solution a))).
Proof.
  unfold iterate_gmres. rewrite !check_shapes_run, !start_gmres_run.
  change (shapes_match (without_exact_solution a)) with (shapes_match a).
  change (new_engine (without_exact_solution a)) with (new_engine a).
  change (rhs_norm (without_exact_solution a)) with (rhs_norm a).
  change (sanitized_maxiter (without_exact_solution a)) with (sanitized_maxiter a).
  destruct (shapes_match a); [| cbn; reflexivity].
  destruct (new_engine a) as [[arn | e0] t0]; run_steps; [| cbn; reflexivity].
  apply gmres_loop_same. constructor; reflexivity.
Qed.

(** X9: tracking the error against an exact solution is diagnostic only:
    [gmres] returns the same solution, history and operation counts, or
    raises the same exception, as the same call without [exact_solution]. *)
Theorem gmres_exact_solution_diagnostic (a : Args) :
  fst (gmres a) = fst (gmres (without_exact_solution a)).
Proof.
  pose proof (iterate_gmres_same a) as Hsame.
  unfold gmres. rewrite !fst_bind.
  destruct (iterate_gmres a) as [[l | e] t] eqn:E;
    destruct (iterate_gmres (without_exact_solution a)) as [[l0 | e0] t0] eqn:E0;
    cbn [fst] in *; cbn in Hsame; try contradiction.
  - destruct (iterate_gmres_Ok _ E) as (_ & Inv & _).
    destruct (iterate_gmres_Ok _ E0) as (_ & Inv0 & _).
    rewrite (finish_gmres_run Inv), (finish_gmres_run Inv0). cbn [fst].
    destruct Hsame as [H1 H2 H3 H4 H5 H6 H7 H8].
    change (arg_tol (without_exact_solution a)) with (arg_tol a).
    assert (Hsol : solution_at_exit (without_exact_solution a) l0
                   = solution_at_exit a l).
    { unfold solution_at_exit. rewrite <- H2, <- H7.
      unfold reconstruct. rewrite <- H1, <- H2, <- H6, <- H8. reflexivity. }
    rewrite Hsol, <- H4, <- H3. reflexivity.
  - congruence.
Qed.

End DiagnosticsProperties.

(** ** Further facts about the restart wrapper *)

Section RestartProgressProperties.
Context {NK : Numeric}.
Variables (LinearSystem Opts Exn : Type).
Variable exact_solution : LinearSystem -> option vec.
Variable Solver : LinearSystem -> kwargs Opts -> solver_result Exn.
Variable linear_system : LinearSystem.
Variable max_restarts : nat.

Local Notation "'pass'" :=
  (@restart_pass NK LinearSystem Opts Exn exact_solution Solver linear_system).
Local Notation "'loop'" :=
  (@restart_loop NK LinearSystem Opts Exn exact_solution Solver linear_system
     max_restarts).
Local Notation "'test'" := (@restart_test NK Opts Exn max_restarts).
Local Notation "'absorb'" :=
  (@absorb_run NK LinearSystem Opts Exn exact_solution linear_system).
Local Notation "'build'" :=
  (@_RestartedSolver NK LinearSystem Opts Exn exact_solution Solver
     linear_system max_restarts).
Local Notation "'progress_at'" :=
  (@restart_progress NK LinearSystem Opts Exn Solver linear_system max_restarts).
Local Notation "'chained_from'" :=
  (@runs_chained NK LinearSystem Opts Exn Solver linear_system).
Local Notation "'entry'" :=
  (@restart_entry NK LinearSystem Opts exact_solution linear_system).

Lemma snoc_cases {X : Type} (l : list X) :
  l = [] \/ exists pre x, l = pre ++ [x].
Proof.
  induction l as [| x pre _] using rev_ind; [left; reflexivity |].
  right. exists pre, x. reflexivity.
Qed.

Lemma guess_after_snoc (x0 : option vec) (runs : list solver) (sol : solver) :
  guess_after x0 (runs ++ [sol]) =
  match sol_xk sol with
  | Some x => Some x
  | None => guess_after x0 runs
  end.
Proof. unfold guess_after. rewrite fold_left_app. reflexivity. Qed.

Lemma build_entry (kw : kwargs Opts) :
  build kw =
  match loop (max_restarts + 1) (entry kw) with
  | inl e => inl e
  | inr st =>
      match above_tol Exn (rs_self st) (rs_tol st) with
      | inl e => inl e
      | inr true => inl (NoConvergence max_restarts (rs_self st))
      | inr false => inr (rs_self st)
      end
  end.
Proof. reflexivity. Qed.

Lemma entry_progress (kw : kwargs Opts) : progress_at kw (entry kw).
Proof.
  constructor; cbn [restart_entry rs_self rs_restart rs_tol rs_kwargs self_runs
                    self_xk length rev].
  - lia.
  - reflexivity.
  - intros pre sol post H. destruct pre; discriminate.
  - unfold next_kwargs. cbn. destruct kw. reflexivity.
  - reflexivity.
Qed.

Lemma absorb_run_shape (st st' : restart_state Opts) (kw : kwargs Opts)
    (sol : solver) :
  absorb st kw sol = inr st' ->
  self_xk (rs_self st') = sol_xk sol /\
  self_runs (rs_self st') = self_runs (rs_self st) ++ [sol] /\
  rs_kwargs st' = kw /\ rs_tol st' = Some (sol_tol sol) /\
  rs_restart st' = rs_restart st + 1 /\
  self_resnorms (rs_self st') =
    removelast (self_resnorms (rs_self st)) ++ sol_resnorms sol /\
  (forall errs', self_errnorms (rs_self st') = Some errs' ->
   exact_solution linear_system = None \/
   exists errs, errs' = removelast errs ++ sol_errnorms sol).
Proof.
  unfold absorb_run.
  destruct (del_last_extend Exn (self_resnorms (rs_self st)) (sol_resnorms sol))
    as [e | rn] eqn:Ern; [discriminate |].
  apply del_last_extend_inr in Ern.
  destruct (exact_solution linear_system) as [ex |] eqn:Eex.
  - destruct (self_errnorms (rs_self st)) as [errs |] eqn:Eerrs.
    + destruct (del_last_extend Exn errs (sol_errnorms sol)) as [e | en] eqn:Een;
        [discriminate |].
      apply del_last_extend_inr in Een.
      intros H. inversion H; subst; clear H. cbn.
      repeat (split; [reflexivity |]).
      intros errs' H. inversion H; subst. right. exists errs. reflexivity.
    + intros H. inversion H; subst; clear H. cbn.
      repeat (split; [reflexivity |]). discriminate.
  - intros H. inversion H; subst; clear H. cbn.
    repeat (split; [reflexivity |]). intros errs' _. left. reflexivity.
Qed.

Lemma restart_pass_progress (kw : kwargs Opts) (st st' : restart_state Opts) :
  progress_at kw st -> rs_restart st <= max_restarts -> pass st = inr st' ->
  progress_at kw st'.
Proof.
  intros [Hb Hr Hch Hnext Hlast] Hle. unfold restart_pass.
  fold (next_kwargs st). rewrite Hnext.
  destruct (Solver linear_system _) as [sol | sol | e] eqn:Es; [| | discriminate];
    intros Ha; apply absorb_run_shape in Ha;
    destruct Ha as (Hxk & Hruns & Hkw & Htol & Hrestart & _);
    (constructor;
     [ lia
     | rewrite Hruns, length_app; cbn [length]; lia
     | rewrite Hruns; intros pre s post Hsplit;
       destruct post as [| s' post'];
       [ apply app_inj_tail in Hsplit; destruct Hsplit as [<- <-];
         unfold produced; rewrite Es; auto
       | apply (Hch pre s (removelast (s' :: post')));
         rewrite (app_removelast_last s (l := s' :: post')) in Hsplit
           by discriminate;
         change (pre ++ s :: removelast (s' :: post') ++ [last (s' :: post') s])
           with (pre ++ (s :: removelast (s' :: post')) ++ [last (s' :: post') s])
           in Hsplit;
         rewrite app_assoc in Hsplit;
         apply app_inj_tail in Hsplit; destruct Hsplit as [Hsplit _];
         exact Hsplit ]
     | unfold next_kwargs; rewrite Hxk, Hkw, Hruns, guess_after_snoc;
       destruct (sol_xk sol); reflexivity
     | rewrite Hruns, rev_app_distr; cbn [rev app]; split; assumption ]).
Qed.

Lemma restart_test_true (st : restart_state Opts) :
  test st = inr true -> rs_restart st <= max_restarts.
Proof.
  unfold restart_test. destruct (rs_restart st =? 0) eqn:E0.
  - apply Nat.eqb_eq in E0. lia.
  - destruct (above_tol _ _ _) as [e | c]; [discriminate |].
    intros H. inversion H as [Hc]. apply andb_true_iff in Hc.
    destruct Hc as [_ Hc]. apply Nat.leb_le in Hc. exact Hc.
Qed.

Lemma restart_loop_progress (kw : kwargs Opts) (budget : nat) :
  forall st st',
  progress_at kw st -> loop budget st = inr st' ->
  progress_at kw st' /\ test st' = inr false.
Proof.
  induction budget as [| budget IH]; intros st st' Hp H; cbn in H;
    destruct (test st) as [e | [|]] eqn:Et; try discriminate;
    try (inversion H; subst; split; assumption).
  destruct (pass st) as [e | st1] eqn:Ep; [discriminate |].
  apply (IH st1 st'); [| exact H].
  eapply restart_pass_progress; [exact Hp | apply restart_test_true, Et | exact Ep].
Qed.

(** Where the constructor leaves its loop: after at least one and at most
    [max_restarts + 1] runs, with the solution and the tolerance of the
    latest run, and with a last residual that is not above that tolerance
    unless every permitted run was made. *)
Lemma build_exit (kw : kwargs Opts) (self : restarted) (above : bool) :
  build kw = (if above then inl (NoConvergence max_restarts self) else inr self) ->
  exists st pre sol r,
    progress_at kw st /\ rs_self st = self /\
    self_runs self = pre ++ [sol] /\
    self_xk self = sol_xk sol /\
    py_last Exn (self_resnorms self) = inr r /\
    sgtb r (sol_tol sol) = above /\
    (above = true -> rs_restart st = max_restarts + 1).
Proof.
  rewrite build_entry.
  destruct (loop _ _) as [e | st] eqn:El.
  - destruct above; [| discriminate].
    intros H. inversion H; subst.
    apply restart_loop_inl in El. destruct El as [[] | He]. discriminate.
  - eapply restart_loop_progress in El; [| apply entry_progress].
    destruct El as [Hp Ht].
    pose proof Hp as [Hb Hr Hch Hnext Hlast].
    unfold restart_test in Ht.
    destruct (rs_restart st =? 0) eqn:E0; [discriminate |].
    apply Nat.eqb_neq in E0.
    destruct (snoc_cases (self_runs (rs_self st))) as [Eruns | (l & s0 & Eruns)];
      rewrite Eruns in Hr, Hlast; [cbn in Hr; congruence |].
    rewrite rev_app_distr in Hlast. cbn [rev app] in Hlast.
    destruct Hlast as [Hxk Htol].
    unfold above_tol in *. rewrite Htol in *.
    destruct (py_last Exn (self_resnorms (rs_self st))) as [e | r] eqn:Er;
      [discriminate |].
    inversion Ht as [Hc].
    intros H.
    assert (Hself : rs_self st = self /\ sgtb r (sol_tol s0) = above).
    { destruct (sgtb r (sol_tol s0)); destruct above; inversion H; auto. }
    destruct Hself as [<- Habove].
    exists st, l, s0, r. repeat (split; [assumption || reflexivity |]).
    intros ->. rewrite Habove in Hc. cbn in Hc.
    apply Nat.leb_gt in Hc. lia.
Qed.

(** X10: the wrapper makes at least one run and at most [max_restarts + 1]
    runs, whether it is built or fails for lack of convergence. *)
Theorem restarted_run_count (kw : kwargs Opts) (self : restarted) :
  build kw = inr self \/ build kw = inl (NoConvergence max_restarts self) ->
  1 <= length (self_runs self) <= max_restarts + 1.
Proof.
  intros [H | H];
    [apply (build_exit kw self false) in H | apply (build_exit kw self true) in H];
    destruct H as (st & pre & sol & r & [Hb Hr _ _ _] & <- & Hruns & _);
    rewrite Hr; rewrite Hruns, length_app in Hr; cbn [length] in Hr; lia.
Qed.

(** X11: the wrapper fails for lack of convergence only after all
    [max_restarts + 1] runs, with the number of restarts it was given, the
    solution of the last run, and a last residual above the tolerance of
    the last run. *)
Theorem restarted_no_convergence (kw : kwargs Opts) (n : nat) (self : restarted) :
  build kw = inl (NoConvergence n self) ->
  n = max_restarts /\
  length (self_runs self) = max_restarts + 1 /\
  exists pre sol r,
    self_runs self = pre ++ [sol] /\
    self_xk self = sol_xk sol /\
    py_last Exn (self_resnorms self) = inr r /\
    sgtb r (sol_tol sol) = true.
Proof.
  intros H.
  assert (Hn : n = max_restarts).
  { rewrite build_entry in H.
    destruct (loop _ _) as [e | st] eqn:El.
    - inversion H; subst.
      apply restart_loop_inl in El. destruct El as [[] | He]. discriminate.
    - destruct (above_tol _ _ _) as [e | [|]] eqn:Ea; inversion H; subst;
        [destruct (above_tol_inl _ _ Ea) | reflexivity]. }
  subst n. split; [reflexivity |].
  apply (build_exit kw self true) in H.
  destruct H as (st & pre & sol & r & [Hb Hr _ _ _] & <- & Hruns & Hxk & Hlast
                 & Habove & Hall).
  split; [rewrite Hr; apply Hall; reflexivity |].
  exists pre, sol, r. auto.
Qed.

(** X12: the wrapper that is built holds the solution of its last run, and
    its last residual is not above the tolerance of that run. *)
Theorem restarted_converged (kw : kwargs Opts) (self : restarted) :
  build kw = inr self ->
  exists pre sol r,
    self_runs self = pre ++ [sol] /\
    self_xk self = sol_xk sol /\
    py_last Exn (self_resnorms self) = inr r /\
    sgtb r (sol_tol sol) = false.
Proof.
  intros H. apply (build_exit kw self false) in H.
  destruct H as (st & pre & sol & r & _ & _ & Hruns & Hxk & Hlast & Habove & _).
  exists pre, sol, r. auto.
Qed.

(** X13: every run is the solver called on the same linear system with the
    caller's keyword arguments, except for the initial guess: the first run
    gets the caller's, and every later run the solution of the latest run
    before it that has one, the guess staying as it was when a run holds no
    solution. *)
Theorem restarted_runs_chained (kw : kwargs Opts) (self : restarted) :
  build kw = inr self \/ build kw = inl (NoConvergence max_restarts self) ->
  chained_from kw (self_runs self).
Proof.
  intros [H | H];
    [apply (build_exit kw self false) in H | apply (build_exit kw self true) in H];
    destruct H as (st & pre & sol & r & [_ _ Hch _ _] & <- & _); exact Hch.
Qed.

Lemma restart_loop_compare (kw : kwargs Opts) (budget : nat) :
  forall st, progress_at kw st -> loop budget st <> inl CompareNone.
Proof.
  induction budget as [| budget IH]; intros st Hp; cbn;
    destruct (test st) as [e | [|]] eqn:Et; try discriminate.
  - intros H. inversion H; subst. revert Et. unfold restart_test.
    destruct (rs_restart st =? 0) eqn:E0; [discriminate |].
    apply Nat.eqb_neq in E0. destruct Hp as [_ Hr _ _ Hlast].
    destruct (snoc_cases (self_runs (rs_self st))) as [Eruns | (l & s0 & Eruns)];
      rewrite Eruns in Hr, Hlast; [cbn in Hr; congruence |].
    rewrite rev_app_distr in Hlast. cbn [rev app] in Hlast.
    destruct Hlast as [_ Htol]. unfold above_tol, py_last. rewrite Htol.
    destruct (rev _); discriminate.
  - intros H. inversion H; subst. revert Et. unfold restart_test.
    destruct (rs_restart st =? 0) eqn:E0; [discriminate |].
    apply Nat.eqb_neq in E0. destruct Hp as [_ Hr _ _ Hlast].
    destruct (snoc_cases (self_runs (rs_self st))) as [Eruns | (l & s0 & Eruns)];
      rewrite Eruns in Hr, Hlast; [cbn in Hr; congruence |].
    rewrite rev_app_distr in Hlast. cbn [rev app] in Hlast.
    destruct Hlast as [_ Htol]. unfold above_tol, py_last. rewrite Htol.
    destruct (rev _); discriminate.
  - destruct (pass st) as [e | st1] eqn:Ep.
    + intros H. inversion H; subst. revert Ep.
      unfold restart_pass, absorb_run, del_last_extend.
      destruct (Solver linear_system _) as [sol | sol | e0]; try discriminate;
        (destruct (self_resnorms (rs_self st)); [discriminate |]);
        (destruct (exact_solution linear_system); [| discriminate]);
        (destruct (self_errnorms (rs_self st)) as [[| x errs] |]);
        discriminate.
    + apply IH.
      eapply restart_pass_progress; [exact Hp | apply restart_test_true, Et | exact Ep].
Qed.

(** X14: the constructor fails only for lack of convergence, with an
    exception of the solver, or at an empty history: the placeholder
    [tol = None] is never compared with a residual. *)
Theorem restarted_failures (kw : kwargs Opts) (e : restart_error Exn) :
  build kw = inl e ->
  (exists self, e = NoConvergence max_restarts self) \/
  (exists e0, e = SolverRaised e0) \/ e = EmptyList.
Proof.
  intros H.
  assert (Hb : build kw <> inl RestartBudget) by apply RestartedSolver_budget.
  assert (Hc : build kw <> inl CompareNone).
  { rewrite build_entry.
    destruct (loop _ _) as [e' | st] eqn:El.
    - intros H'. inversion H'; subst. revert El.
      eapply restart_loop_compare, entry_progress.
    - eapply restart_loop_progress in El; [| apply entry_progress].
    destruct El as [Hp Ht].
      destruct Hp as [_ Hr _ _ Hlast].
      unfold restart_test in Ht.
      destruct (rs_restart st =? 0) eqn:E0; [discriminate |].
      apply Nat.eqb_neq in E0.
      destruct (snoc_cases (self_runs (rs_self st))) as [Eruns | (l & s0 & Eruns)];
        rewrite Eruns in Hr, Hlast; [cbn in Hr; congruence |].
      rewrite rev_app_distr in Hlast. cbn [rev app] in Hlast.
      destruct Hlast as [_ Htol]. unfold above_tol, py_last. rewrite Htol.
      destruct (rev _); [discriminate |]. destruct (sgtb _ _); discriminate. }
  rewrite H in Hb, Hc.
  destruct e as [n self | e0 | | |]; try congruence; eauto.
  left. exists self.
  rewrite build_entry in H.
  destruct (loop _ _) as [e' | st] eqn:El.
  - inversion H; subst.
    apply restart_loop_inl in El. destruct El as [[] | He]. discriminate.
  - destruct (above_tol _ _ _) as [e' | [|]] eqn:Ea; inversion H; subst;
      [destruct (above_tol_inl _ _ Ea) | reflexivity].
Qed.

Local Notation "'records'" :=
  (@solver_records NK LinearSystem Opts Exn exact_solution Solver linear_system).

Lemma above_tol_entries (self : restarted) (tol : option scalar) :
  holds_entries self -> above_tol Exn self tol <> inl EmptyList.
Proof.
  intros [Hres _]. unfold above_tol, py_last.
  destruct (rev (self_resnorms self)) eqn:Er.
  - apply (f_equal (@rev scalar)) in Er. rewrite rev_involutive in Er.
    contradiction.
  - destruct tol; discriminate.
Qed.

Lemma restart_test_entries (st : restart_state Opts) :
  holds_entries (rs_self st) -> test st <> inl EmptyList.
Proof.
  intros He. unfold restart_test.
  destruct (rs_restart st =? 0); [discriminate |].
  pose proof (above_tol_entries (rs_tol st) He) as Ha.
  destruct (above_tol _ _ _) as [e | c]; [| discriminate].
  intros H. inversion H; subst. contradiction.
Qed.

Lemma restart_pass_entries (st : restart_state Opts) :
  records -> holds_entries (rs_self st) ->
  match pass st with
  | inl e => e <> EmptyList
  | inr st' => holds_entries (rs_self st')
  end.
Proof.
  intros Hrec [Hres Herr]. unfold restart_pass.
  destruct (Solver linear_system _) as [sol | sol | e] eqn:Es; [| | discriminate].
  all: edestruct (Hrec) as [Hr He];
    [unfold produced; rewrite Es; auto |].
  all: unfold absorb_run, del_last_extend.
  all: destruct (self_resnorms (rs_self st)) as [| r0 rs0]; [contradiction |].
  all: destruct (exact_solution linear_system) as [ex |].
  all: try (destruct (self_errnorms (rs_self st)) as [[| e0 es0] |];
            [contradiction | |]).
  all: split; cbn [rs_self self_resnorms self_errnorms].
  all: try (intros H; apply app_eq_nil in H; destruct H as [_ H];
            contradiction).
  all: try discriminate.
  all: try assumption.
  all: intros H; inversion H as [H'];
    apply app_eq_nil in H'; destruct H' as [_ H'];
    revert H'; apply He; discriminate.
Qed.

Lemma restart_loop_entries (budget : nat) :
  records -> forall st, holds_entries (rs_self st) ->
  match loop budget st with
  | inl e => e <> EmptyList
  | inr st' => holds_entries (rs_self st')
  end.
Proof.
  intros Hrec.
  induction budget as [| budget IH]; intros st He; cbn;
    pose proof (restart_test_entries st He) as Ht;
    destruct (test st) as [e | [|]]; try congruence; try discriminate.
  pose proof (restart_pass_entries st Hrec He) as Hp.
  destruct (pass st) as [e | st1]; [exact Hp |].
  apply IH. exact Hp.
Qed.

(** X15: when every solver object has a residual history with an entry,
    and an error history with an entry if an exact solution is tracked, the
    constructor never indexes or shortens an empty list. *)
Theorem restarted_no_empty_history (kw : kwargs Opts) :
  records -> build kw <> inl EmptyList.
Proof.
  intros Hrec. rewrite build_entry.
  assert (He : holds_entries (rs_self (entry kw))).
  { split; cbn; [discriminate |].
    destruct (exact_solution linear_system); discriminate. }
  pose proof (restart_loop_entries (max_restarts + 1) Hrec _ He) as Hl.
  destruct (loop _ _) as [e | st]; [congruence |].
  pose proof (above_tol_entries (rs_tol st) Hl) as Ha.
  destruct (above_tol _ _ _) as [e | [|]]; congruence.
Qed.

End RestartProgressProperties.

(** ** Facts about the perturbation bound *)

Section PerturbationBoundProperties.
Context {NK : Numeric}.
Variables (Exn Paths Vertices Values : Type).
Variable contour_paths : scalar -> Exn + Paths.
Variable path_vertices : Paths -> Exn + Vertices.
Variable path_length : Paths -> Exn + scalar.
Variable p : Vertices -> Exn + Values.
Variable max_abs : Values -> Exn + scalar.
Variable ssub : scalar -> scalar -> scalar.
Variable divide : scalar -> scalar -> Exn + scalar.
Variable two_pi : scalar.

Local Notation "'entry_for'" :=
  (bound_entry contour_paths path_vertices path_length p max_abs ssub divide
     two_pi).
Local Notation "'loop_from'" :=
  (bound_loop contour_paths path_vertices path_length p max_abs ssub divide
     two_pi).
Local Notation "'bound_for'" :=
  (bound_perturbed_gmres contour_paths path_vertices path_length p max_abs ssub
     divide two_pi).

Lemma forallb_false_inv {X : Type} (f : X -> bool) (l : list X) :
  forallb f l = false -> exists x, In x l /\ f x = false.
Proof.
  induction l as [| x l IH]; cbn [forallb]; [discriminate |].
  destruct (f x) eqn:E; cbn [andb].
  - intros H. destruct (IH H) as (y & Hin & Hy). exists y. split; [right |]; auto.
  - intros _. exists x. split; [left; reflexivity | exact E].
Qed.

Lemma calling_not_argument_error {X Y : Type} (c : Exn + X)
    (k : X -> bound_error Exn + Y) (msg : string) :
  (forall x, k x <> inl (ArgumentError msg)) ->
  calling c k <> inl (ArgumentError msg).
Proof. intros Hk. unfold calling. destruct c; [discriminate | apply Hk]. Qed.

Lemma bound_entry_not_argument_error (epsilon delta : scalar) (msg : string) :
  entry_for epsilon delta <> inl (ArgumentError msg).
Proof.
  unfold bound_entry.
  repeat (apply calling_not_argument_error; intros ?). discriminate.
Qed.

Lemma bound_loop_not_argument_error (epsilon : scalar) (msg : string)
    (deltas : list scalar) :
  forall bound, loop_from epsilon deltas bound <> inl (ArgumentError msg).
Proof.
  induction deltas as [| delta rest IH]; intros bound; cbn [bound_loop];
    [discriminate |].
  destruct (entry_for epsilon delta) as [e | b] eqn:E; [| apply IH].
  intros H. inversion H; subst. revert E. apply bound_entry_not_argument_error.
Qed.

Lemma bound_loop_inr (epsilon : scalar) (deltas : list scalar) :
  forall bound bs,
  loop_from epsilon deltas bound = inr bs ->
  exists more,
    bs = bound ++ more /\
    Forall2 (fun delta b => entry_for epsilon delta = inr b) deltas more.
Proof.
  induction deltas as [| delta rest IH]; intros bound bs; cbn [bound_loop].
  - intros H. inversion H; subst. exists []. rewrite app_nil_r. auto.
  - destruct (entry_for epsilon delta) as [e | b] eqn:E; [discriminate |].
    intros H. apply IH in H. destruct H as (more & -> & Hall).
    exists (b :: more). rewrite <- app_assoc. auto.
Qed.

Lemma bound_loop_inl (epsilon : scalar) (deltas : list scalar) :
  forall bound e,
  loop_from epsilon deltas bound = inl e ->
  exists pre delta post,
    deltas = pre ++ delta :: post /\
    entry_for epsilon delta = inl e /\
    Forall (fun d => exists b, entry_for epsilon d = inr b) pre.
Proof.
  induction deltas as [| delta rest IH]; intros bound e; cbn [bound_loop];
    [discriminate |].
  destruct (entry_for epsilon delta) as [e' | b] eqn:E.
  - intros H. inversion H; subst. exists [], delta, rest. auto.
  - intros H. apply IH in H. destruct H as (pre & d & post & -> & Hd & Hpre).
    exists (delta :: pre), d, post. repeat split; [exact Hd |].
    constructor; [exists b; exact E | exact Hpre].
Qed.

(** X16: [bound_perturbed_gmres] raises its [ArgumentError] exactly when
    some delta is not greater than epsilon, whatever the pseudospectrum
    object and the polynomial do: they are not consulted before the check,
    and none of their exceptions is taken for it. *)
Theorem bound_argument_error (epsilon : scalar) (deltas : list scalar)
    (msg : string) :
  bound_perturbed_gmres contour_paths path_vertices path_length p max_abs ssub
    divide two_pi epsilon deltas
  = inl (ArgumentError msg) <->
  msg = "all deltas have to be greater than epsilon"%string /\
  exists delta, In delta deltas /\ sgtb delta epsilon = false.
Proof.
  unfold bound_perturbed_gmres.
  destruct (forallb (fun delta => sgtb delta epsilon) deltas) eqn:E;
    cbn [negb].
  - split.
    + intros H. exfalso. revert H. apply bound_loop_not_argument_error.
    + intros (_ & delta & Hin & Hd).
      rewrite forallb_forall in E. rewrite (E _ Hin) in Hd. discriminate.
  - split.
    + intros H. inversion H; subst. split; [reflexivity |].
      destruct (forallb_false_inv _ _ E) as (delta & Hin & Hd).
      exists delta. auto.
    + intros (-> & _). reflexivity.
Qed.

(** X17: when [bound_perturbed_gmres] returns, every delta is greater than
    epsilon and the list returned has one entry for every delta, in the
    order of the deltas: the entry the loop body computes for it. *)
Theorem bound_entries (epsilon : scalar) (deltas bs : list scalar) :
  bound_perturbed_gmres contour_paths path_vertices path_length p max_abs ssub
    divide two_pi epsilon deltas
  = inr bs ->
  Forall (fun delta => sgtb delta epsilon = true) deltas /\
  length bs = length deltas /\
  Forall2
    (fun delta b =>
       bound_entry contour_paths path_vertices path_length p max_abs ssub
        divide two_pi epsilon delta
       = inr b)
    deltas bs.
Proof.
  unfold bound_perturbed_gmres.
  destruct (forallb (fun delta => sgtb delta epsilon) deltas) eqn:E;
    cbn [negb]; [| discriminate].
  intros H. apply bound_loop_inr in H. destruct H as (more & -> & Hall).
  cbn [app]. split; [| split].
  - apply Forall_forall. apply forallb_forall. exact E.
  - symmetry. exact (Forall2_length Hall).
  - exact Hall.
Qed.

(** X18: an exception of the pseudospectrum object, of the polynomial, of
    [numpy.max] or of a division leaves [bound_perturbed_gmres] only when
    every delta is greater than epsilon, and it is the one of the first
    delta whose entry cannot be computed. *)
Theorem bound_propagates (epsilon : scalar) (deltas : list scalar) (e : Exn) :
  bound_perturbed_gmres contour_paths path_vertices path_length p max_abs ssub
    divide two_pi epsilon deltas
  = inl (Propagated e) ->
  Forall (fun delta => sgtb delta epsilon = true) deltas /\
  exists pre delta post,
    deltas = pre ++ delta :: post /\
    bound_entry contour_paths path_vertices path_length p max_abs ssub
      divide two_pi epsilon delta
    = inl (Propagated e) /\
    Forall
      (fun d =>
         exists b,
           bound_entry contour_paths path_vertices path_length p max_abs ssub
             divide two_pi epsilon d
           = inr b)
      pre.
Proof.
  unfold bound_perturbed_gmres.
  destruct (forallb (fun delta => sgtb delta epsilon) deltas) eqn:E;
    cbn [negb]; [| discriminate].
  intros H. split.
  - apply Forall_forall. apply forallb_forall. exact E.
  - exact (bound_loop_inl _ _ _ H).
Qed.

End PerturbationBoundProperties.

(** ** Concrete runs *)

Import Exact Runs Contours.

(** C3: in the call with one iteration allowed and the tolerance [1e-5],
    the only iteration ends at the relative residual [4/5] and [gmres]
    raises [ConvergenceError].  The error is built from its message alone:
    it holds the limit [1] and the last residual [4/5], and neither the
    history [[1, 4/5]] nor the basis and the Hessenberg matrix, which are
    fetched when [store_arnoldi] is set and then dropped; the error is the
    same with and without the flag. *)
Theorem convergence_error_payload :
  gmres (unconverged true) =
  (Raise (ConvergenceError 1 (4 # 5)%Q), [ApplyA; ApplyA]) /\
  gmres (unconverged false) = gmres (unconverged true).
Proof. split; reflexivity. Qed.

(** The shape check at a 2x3 operator, and at a square operator with a
    right-hand side of another dimension. *)
Example gmres_shape_check_not_square :
  gmres (call_gmres {| shape := [2; 3]; matvec := mat_vec [[1; 4; 0]; [0; 3; 0]]%Q |}
           [0; 1; 0]%Q Identity None (1 # 100000)%Q None false)
  = (Raise AssertionError, []).
Proof. reflexivity. Qed.

Example gmres_shape_check_rhs :
  gmres (call_gmres A2 [0; 1; 0]%Q Identity None (1 # 100000)%Q None false)
  = (Raise AssertionError, []).
Proof. reflexivity. Qed.

(** [gmres_zero_rhs] at the zero right-hand side [b = [0]] with
    [A = [[1]]], [x0 = [1]] and [tol = 1e-5]. *)
Lemma gmres_zero_rhs_witness :
  (shapes_match (zero_rhs (1 # 100000)) = true /\
   seqb (rhs_norm (zero_rhs (1 # 100000))) zero = true /\
   sltb zero (arg_tol (zero_rhs (1 # 100000))) = true) /\
  gmres (zero_rhs (1 # 100000)) =
  (Ok (Some [0%Q],
       {| resnorms := [0%Q]; operations := count_operations 0 |}),
   [ApplyA])
  /\ count ApplyA [ApplyA] = 1.
Proof.
  split; [repeat split; reflexivity |].
  eapply (gmres_zero_rhs (zero_rhs (1 # 100000))); reflexivity.
Defined.

(** The claim of C1 fails at the zero right-hand side [b = [0]] with
    [A = [[1]]], [x0 = [1]] and [tol = 0]: [gmres] returns [None], not the
    zero vector, and it has applied [A] once. *)
Lemma zero_rhs_counterexample :
  seqb (rhs_norm (zero_rhs 0)) zero = true /\
  gmres (zero_rhs 0) =
  (Ok (None, {| resnorms := [0%Q]; operations := count_operations 0 |}),
   [ApplyA]) /\
  ~ (exists info t,
       gmres (zero_rhs 0) = (Ok (Some (zeros_like (arg_b (zero_rhs 0))), info), t) /\
       resnorms info = [zero] /\ count ApplyA t = 0).
Proof.
  assert (E : gmres (zero_rhs 0) =
              (Ok (None, {| resnorms := [0%Q]; operations := count_operations 0 |}),
               [ApplyA])) by reflexivity.
  split; [reflexivity |]. split; [exact E |].
  intros (info & t & H & _). rewrite E in H. discriminate.
Qed.

(** [gmres_maxiter_zero] at [A = [[1, 4], [0, 3]]], [b = [0, 1]],
    [tol = 1e-5] and [maxiter = 0]. *)
Lemma gmres_maxiter_zero_witness :
  (shapes_match no_iterations = true /\
   arg_maxiter no_iterations = Some 0 /\
   seqb (rhs_norm no_iterations) zero = false /\
   sgtb (initial_relres no_iterations) (arg_tol no_iterations) = true) /\
  gmres no_iterations =
  (Ok (None, {| resnorms := [1%Q]; operations := count_operations 0 |}),
   [ApplyA]).
Proof.
  split; [repeat split; reflexivity |].
  eapply (gmres_maxiter_zero no_iterations); reflexivity.
Defined.

(** [gmres_solution_iff_converged] at the call that converges in one step:
    the last entry [4/5] is below the tolerance [9/10] and the solution
    [[0, 3/25]] is returned. *)
Lemma gmres_solution_iff_converged_witness :
  gmres converged =
  (Ok (Some [0; 3 # 25]%Q,
       {| resnorms := [1; 4 # 5]%Q; operations := count_operations 0 |}),
   [ApplyA; ApplyA; SolveTriangular; ApplyA]) /\
  exists l t1,
    iterate_gmres converged = (Ok l, t1) /\
    Some [0; 3 # 25]%Q = Some (solution_at_exit converged l).
Proof.
  assert (H : gmres converged =
              (Ok (Some [0; 3 # 25]%Q,
                   {| resnorms := [1; 4 # 5]%Q; operations := count_operations 0 |}),
               [ApplyA; ApplyA; SolveTriangular; ApplyA]))
    by reflexivity.
  split; [exact H |].
  destruct (gmres_solution_iff_converged converged H)
    as (l & t1 & Hit & _ & Hsome & _).
  exists l, t1. split; [exact Hit |]. apply Hsome. reflexivity.
Defined.

(** [explicit_residual_confirms] at the only pass of the same call: the
    updated residual [4/5] is below [9/10], and the entry recorded is the
    explicit residual, [4/5] as well. *)
Lemma explicit_residual_confirms_witness :
  (fst (new_engine converged) = Ok converged_engine /\
   advance_and_rotate 1 converged_entry = (Ok converged_rotated, [ApplyA]) /\
   sleb (sdiv (sabs (nth (st_iter converged_rotated + 1)
                       (st_y converged_rotated) zero)) 1%Q)
     (arg_tol converged) = true) /\
  exists l' t,
    loop_body converged 1 1%Q converged_entry = (Ok l', [ApplyA] ++ t) /\
    st_resnorms l' = [1; 4 # 5]%Q /\
    count ApplyA t = 1.
Proof.
  assert (Hadv : advance_and_rotate 1 converged_entry
                 = (Ok converged_rotated, [ApplyA])) by reflexivity.
  assert (Hle : sleb (sdiv (sabs (nth (st_iter converged_rotated + 1)
                                    (st_y converged_rotated) zero)) 1%Q)
                  (arg_tol converged) = true) by reflexivity.
  split; [split; [reflexivity | split; [exact Hadv | exact Hle]] |].
  destruct (@explicit_residual_confirms _ _ converged 1 1%Q _ _ _ Hadv eq_refl Hle)
    as (l' & t & Hbody & Hres & _ & _ & Hcount).
  exists l', t.
  split; [exact Hbody |]. split; [exact Hres | exact Hcount].
Defined.

(** [gmres_solution_reconstruction] at the call with the right
    preconditioner [2 I]. *)
Lemma gmres_solution_reconstruction_witness :
  gmres right_preconditioned =
  (Ok (Some [0; 3 # 25]%Q,
       {| resnorms := [1; 4 # 5]%Q; operations := count_operations 0 |}),
   [ApplyA; ApplyMr; ApplyA; SolveTriangular; ApplyMr; ApplyA]) /\
  exists l t1,
    iterate_gmres right_preconditioned = (Ok l, t1) /\
    forall v, snd (MlAMr right_preconditioned v) = [ApplyMr; ApplyA].
Proof.
  assert (H : gmres right_preconditioned =
              (Ok (Some [0; 3 # 25]%Q,
                   {| resnorms := [1; 4 # 5]%Q; operations := count_operations 0 |}),
               [ApplyA; ApplyMr; ApplyA; SolveTriangular; ApplyMr; ApplyA]))
    by reflexivity.
  split; [exact H |].
  destruct (gmres_solution_reconstruction right_preconditioned H)
    as (l & t1 & Hit & _ & _ & Hop).
  exists l, t1. split; [exact Hit |].
  intros v. rewrite Hop. reflexivity.
Defined.

(** The claim of C6 fails at the call with the right preconditioner [2 I]:
    the run makes one reconstruction, with one triangular solve, and
    applies [Mr] twice, the first time before any reconstruction, inside
    the Arnoldi step. *)
Lemma right_preconditioner_counterexample :
  gmres right_preconditioned =
  (Ok (Some [0; 3 # 25]%Q,
       {| resnorms := [1; 4 # 5]%Q; operations := count_operations 0 |}),
   [ApplyA; ApplyMr; ApplyA; SolveTriangular; ApplyMr; ApplyA]) /\
  ~ (forall x info t,
       gmres right_preconditioned = (Ok (Some x, info), t) ->
       count ApplyMr t <= count SolveTriangular t).
Proof.
  split; [reflexivity |].
  intros H.
  specialize (H [0; 3 # 25]%Q
                {| resnorms := [1; 4 # 5]%Q; operations := count_operations 0 |}
                [ApplyA; ApplyMr; ApplyA; SolveTriangular; ApplyMr; ApplyA]).
  assert (Hle : 2 <= 1) by (apply H; reflexivity).
  lia.
Qed.

(** [gmres_operation_counts] at the call that converges in one step. *)
Lemma gmres_operation_counts_witness :
  gmres converged =
  (Ok (Some [0; 3 # 25]%Q,
       {| resnorms := [1; 4 # 5]%Q; operations := count_operations 0 |}),
   [ApplyA; ApplyA; SolveTriangular; ApplyA]) /\
  exists l t1,
    iterate_gmres converged = (Ok l, t1) /\
    count_operations 0 = count_operations (arn_iter (st_arnoldi l) - 1).
Proof.
  assert (H : gmres converged =
              (Ok (Some [0; 3 # 25]%Q,
                   {| resnorms := [1; 4 # 5]%Q; operations := count_operations 0 |}),
               [ApplyA; ApplyA; SolveTriangular; ApplyA]))
    by reflexivity.
  split; [exact H |].
  destruct (gmres_operation_counts converged H) as (l & t1 & Hit & Hops & _).
  exists l, t1. split; [exact Hit | exact Hops].
Defined.

(** The claim of C7 fails at a call whose three preconditioners are the
    identity: no preconditioner is applied, and the summary counts two
    applications of [M], two of [Ml] and one of [Mr]. *)
Lemma identity_counts_counterexample :
  (arg_M converged = Identity /\ arg_Ml converged = Identity /\
   arg_Mr converged = Identity) /\
  ~ (forall sol info t,
       gmres converged = (Ok (sol, info), t) ->
       op_M (operations info) = 0 /\ op_Ml (operations info) = 0 /\
       op_Mr (operations info) = 0).
Proof.
  split; [repeat split; reflexivity |].
  intros H.
  specialize (H (Some [0; 3 # 25]%Q)
                {| resnorms := [1; 4 # 5]%Q; operations := count_operations 0 |}
                [ApplyA; ApplyA; SolveTriangular; ApplyA]).
  assert (Hc : 2 = 0) by (apply H; reflexivity).
  discriminate.
Qed.

(** [restarted_history] at two runs of which the second starts where the
    first ended. *)
Lemma restarted_history_witness :
  exists self,
    chained_restart = inr self /\
    self_resnorms self = [1; 1 # 2; 1 # 16]%Q /\
    self_resnorms self = claimed_history [[1; 1 # 2]; [1 # 2; 1 # 16]]%Q /\
    self_errnorms self = Some (kept_history [[2; 1]; [1; 1 # 8]]%Q).
Proof.
  eexists. split; [reflexivity |].
  match goal with
  | |- context [self_resnorms ?s] =>
      destruct (@restarted_history QNumeric unit unit unit
                  (fun _ => Some [0%Q]) two_chained_runs tt 1
                  {| kw_x0 := None; kw_other := tt |} s (or_introl eq_refl))
        as (_ & Hacc & _ & Hclaimed & Herr)
  end.
  split; [reflexivity |]. split.
  - apply Hclaimed.
    + repeat constructor; discriminate.
    + cbn. split; [| auto]. exists (1 # 2)%Q, [1%Q], [(1 # 16)%Q]. auto.
  - destruct Herr as (_ & Hkept & _); [discriminate |].
    apply Hkept. repeat constructor; discriminate.
Defined.

(** The claim of C8 fails for [two_runs]: the first run ends at [1/2] and
    the second starts at [63/128]; the wrapper keeps [63/128] and drops
    [1/2], while the claimed list keeps [1/2] and drops [63/128]. *)
Lemma restart_history_counterexample :
  exists self,
    @_RestartedSolver QNumeric unit unit unit (fun _ => None) two_runs tt 1
      {| kw_x0 := None; kw_other := tt |} = inr self /\
    map sol_resnorms (self_runs self) = [[1; 1 # 2]; [63 # 128; 1 # 16]]%Q /\
    self_resnorms self = [1; 63 # 128; 1 # 16]%Q /\
    claimed_history (map sol_resnorms (self_runs self)) = [1; 1 # 2; 1 # 16]%Q /\
    self_resnorms self <> claimed_history (map sol_resnorms (self_runs self)).
Proof.
  eexists. split; [reflexivity |].
  repeat split; try reflexivity. cbn. discriminate.
Qed.

(** [gmres_history_length] at the call that converges in one step: one
    step of the engine and a history of two entries. *)
Lemma gmres_history_length_witness :
  gmres converged =
  (Ok (Some [0; 3 # 25]%Q,
       {| resnorms := [1; 4 # 5]%Q; operations := count_operations 0 |}),
   [ApplyA; ApplyA; SolveTriangular; ApplyA]) /\
  exists l t1,
    iterate_gmres converged = (Ok l, t1) /\
    arn_iter (st_arnoldi l) <= 1 /\
    2 = arn_iter (st_arnoldi l) + 1.
Proof.
  assert (H : gmres converged =
              (Ok (Some [0; 3 # 25]%Q,
                   {| resnorms := [1; 4 # 5]%Q; operations := count_operations 0 |}),
               [ApplyA; ApplyA; SolveTriangular; ApplyA]))
    by reflexivity.
  split; [exact H |].
  destruct (gmres_history_length converged H) as (l & t1 & Hit & Hsteps & Hlen & _).
  exists l, t1. split; [exact Hit |]. split; [exact Hsteps | exact Hlen].
Defined.

(** [gmres_history_above_tolerance] at the same call: the first entry [1]
    is above the tolerance [9/10]. *)
Lemma gmres_history_above_tolerance_witness :
  gmres converged =
  (Ok (Some [0; 3 # 25]%Q,
       {| resnorms := [1; 4 # 5]%Q; operations := count_operations 0 |}),
   [ApplyA; ApplyA; SolveTriangular; ApplyA]) /\
  Forall (fun r => Qgtb r (9 # 10) = true) [1%Q].
Proof.
  assert (H : gmres converged =
              (Ok (Some [0; 3 # 25]%Q,
                   {| resnorms := [1; 4 # 5]%Q; operations := count_operations 0 |}),
               [ApplyA; ApplyA; SolveTriangular; ApplyA]))
    by reflexivity.
  split; [exact H |].
  exact (gmres_history_above_tolerance converged H).
Defined.

(** [gmres_exit_reason] at the same call. *)
Lemma gmres_exit_reason_witness :
  gmres converged =
  (Ok (Some [0; 3 # 25]%Q,
       {| resnorms := [1; 4 # 5]%Q; operations := count_operations 0 |}),
   [ApplyA; ApplyA; SolveTriangular; ApplyA]) /\
  exists l t1,
    iterate_gmres converged = (Ok l, t1) /\
    (Qgtb (4 # 5) (9 # 10) = false \/
     arn_iter (st_arnoldi l) = 1 \/
     arn_invariant (st_arnoldi l) = true).
Proof.
  assert (H : gmres converged =
              (Ok (Some [0; 3 # 25]%Q,
                   {| resnorms := [1; 4 # 5]%Q; operations := count_operations 0 |}),
               [ApplyA; ApplyA; SolveTriangular; ApplyA]))
    by reflexivity.
  split; [exact H |].
  destruct (gmres_exit_reason converged H) as (l & t1 & Hit & Hexit).
  exists l, t1. split; [exact Hit | exact Hexit].
Defined.

(** [gmres_convergence_error] at the call with one iteration allowed and
    the tolerance [1e-5]. *)
Lemma gmres_convergence_error_witness :
  gmres (unconverged true) =
  (Raise (ConvergenceError 1 (4 # 5)%Q), [ApplyA; ApplyA]) /\
  1 = sanitized_maxiter (unconverged true) /\
  1 <= sanitized_maxiter (unconverged true) /\
  Qle_bool (4 # 5) (1 # 100000) = false.
Proof.
  assert (H : gmres (unconverged true) =
              (Raise (ConvergenceError 1 (4 # 5)%Q), [ApplyA; ApplyA]))
    by reflexivity.
  split; [exact H |].
  exact (gmres_convergence_error (unconverged true) H).
Defined.

(** [gmres_setup_applications] at the call that converges in one step. *)
Lemma gmres_setup_applications_witness :
  shapes_match converged = true /\
  exists t',
    snd (gmres converged) = start_events converged ++ t' /\
    1 <= count ApplyA (snd (gmres converged)).
Proof.
  split; [reflexivity |].
  apply (gmres_setup_applications converged). reflexivity.
Defined.

(** [restarted_run_count] at the two runs of [two_chained_runs], with one
    restart allowed. *)
Lemma restarted_run_count_witness :
  exists self,
    chained_restart = inr self /\
    1 <= length (self_runs self) <= 2.
Proof.
  eexists. split; [reflexivity |].
  match goal with
  | |- context [self_runs ?s] =>
      exact (@restarted_run_count QNumeric unit unit unit
               (fun _ => Some [0%Q]) two_chained_runs tt 1
               {| kw_x0 := None; kw_other := tt |} s (or_introl eq_refl))
  end.
Defined.

(** [restarted_no_convergence] at [two_runs] with no restart allowed: the
    only run ends at [1/2], above its tolerance [1/10]. *)
Lemma restarted_no_convergence_witness :
  exists self,
    @_RestartedSolver QNumeric unit unit unit (fun _ => None) two_runs tt 0
      {| kw_x0 := None; kw_other := tt |} = inl (NoConvergence 0 self) /\
    length (self_runs self) = 1 /\
    self_resnorms self = [1; 1 # 2]%Q.
Proof.
  eexists. split; [reflexivity |].
  match goal with
  | |- context [self_runs ?s] =>
      destruct (@restarted_no_convergence QNumeric unit unit unit
                  (fun _ => None) two_runs tt 0
                  {| kw_x0 := None; kw_other := tt |} 0 s eq_refl)
        as (_ & Hlen & _)
  end.
  split; [exact Hlen | reflexivity].
Defined.

(** [restarted_converged] at the two runs of [two_chained_runs]: the
    wrapper holds the solution [[2]] of the second run, and its last
    residual [1/16] is not above the tolerance [1/10]. *)
Lemma restarted_converged_witness :
  exists self,
    chained_restart = inr self /\
    exists pre sol r,
      self_runs self = pre ++ [sol] /\
      self_xk self = sol_xk sol /\
      py_last unit (self_resnorms self) = inr r /\
      Qgtb r (sol_tol sol) = false.
Proof.
  eexists. split; [reflexivity |].
  match goal with
  | |- context [self_runs ?s] =>
      exact (@restarted_converged QNumeric unit unit unit
               (fun _ => Some [0%Q]) two_chained_runs tt 1
               {| kw_x0 := None; kw_other := tt |} s eq_refl)
  end.
Defined.

(** [restarted_runs_chained] at the same wrapper: the second run was called
    with the solution [[1]] of the first as its initial guess. *)
Lemma restarted_runs_chained_witness :
  exists self first second,
    chained_restart = inr self /\
    self_runs self = [first; second] /\
    produced (two_chained_runs tt {| kw_x0 := Some [1%Q]; kw_other := tt |})
      second.
Proof.
  eexists. eexists. eexists. split; [reflexivity |]. split; [reflexivity |].
  match goal with
  | |- produced (two_chained_runs tt _) ?second =>
      exact (@restarted_runs_chained QNumeric unit unit unit
               (fun _ => Some [0%Q]) two_chained_runs tt 1
               {| kw_x0 := None; kw_other := tt |} _ (or_introl eq_refl)
               [_] second [] eq_refl)
  end.
Defined.

(** [restarted_failures] at [two_runs] with no restart allowed. *)
Lemma restarted_failures_witness :
  exists self,
    @_RestartedSolver QNumeric unit unit unit (fun _ => None) two_runs tt 0
      {| kw_x0 := None; kw_other := tt |} = inl (NoConvergence 0 self) /\
    ((exists self', @NoConvergence QNumeric unit 0 self = NoConvergence 0 self') \/
     (exists e0, @NoConvergence QNumeric unit 0 self = SolverRaised e0) \/
     @NoConvergence QNumeric unit 0 self = EmptyList).
Proof.
  eexists. split; [reflexivity |].
  match goal with
  | |- context [NoConvergence 0 ?s] =>
      exact (@restarted_failures QNumeric unit unit unit
               (fun _ => None) two_runs tt 0
               {| kw_x0 := None; kw_other := tt |} (NoConvergence 0 s) eq_refl)
  end.
Defined.

(** [restarted_no_empty_history] at [two_chained_runs], both of whose runs
    have histories with two entries. *)
Lemma restarted_no_empty_history_witness :
  @solver_records QNumeric unit unit unit (fun _ => Some [0%Q])
    two_chained_runs tt /\
  chained_restart <> inl EmptyList.
Proof.
  assert (Hrec : @solver_records QNumeric unit unit unit (fun _ => Some [0%Q])
                   two_chained_runs tt).
  { intros kw sol. unfold produced, two_chained_runs.
    destruct (kw_x0 kw); intros [H | H]; inversion H; subst; cbn;
      split; intros; discriminate. }
  split; [exact Hrec |].
  exact (@restarted_no_empty_history QNumeric unit unit unit
           (fun _ => Some [0%Q]) two_chained_runs tt 1
           {| kw_x0 := None; kw_other := tt |} Hrec).
Defined.

(** [bound_entries] at [epsilon = 1/10] and the deltas [1/2] and [1]. *)
Lemma bound_entries_witness :
  disc_bound (1 # 10) [1 # 2; 1]%Q = inr [3 # 8; 2 # 9]%Q /\
  Forall (fun delta => Qgtb delta (1 # 10) = true) [1 # 2; 1]%Q /\
  length [3 # 8; 2 # 9]%Q = length [1 # 2; 1]%Q.
Proof.
  assert (H : disc_bound (1 # 10) [1 # 2; 1]%Q = inr [3 # 8; 2 # 9]%Q)
    by reflexivity.
  split; [exact H |].
  destruct (@bound_entries QNumeric unit Q (list Q) (list Q)
              _ _ _ _ _ _ _ _ _ _ _ H) as (Habove & Hlen & _).
  split; [exact Habove | exact Hlen].
Defined.

(** [bound_propagates] at the deltas [1/2] and [2]: the pseudospectrum is
    not known at [2], and the exception of [contour_paths] leaves the
    function after the entry for [1/2] was computed. *)
Lemma bound_propagates_witness :
  disc_bound (1 # 10) [1 # 2; 2]%Q = inl (Propagated tt) /\
  Forall (fun delta => Qgtb delta (1 # 10) = true) [1 # 2; 2]%Q.
Proof.
  assert (H : disc_bound (1 # 10) [1 # 2; 2]%Q = inl (Propagated tt))
    by reflexivity.
  split; [exact H |].
  destruct (@bound_propagates QNumeric unit Q (list Q) (list Q)
              _ _ _ _ _ _ _ _ _ _ _ H) as (Habove & _).
  exact Habove.
Defined.

(** [bound_perturbed_gmres] at a delta equal to epsilon: the
    [ArgumentError], although the pseudospectrum is not known at the other
    delta. *)
Example bound_argument_error_at_epsilon :
  disc_bound (1 # 2) [2; 1 # 2]%Q =
  inl (ArgumentError "all deltas have to be greater than epsilon").
Proof. reflexivity. Qed.

(** [last_iteration_raises] at the only pass of the call with one iteration
    allowed and the tolerance [1e-5], after the step of the engine and the
    rotation. *)
Lemma last_iteration_raises_witness :
  (arg_exact_solution (unconverged true) = None /\
   arg_use_explicit_residual (unconverged true) = false /\
   Qle_bool (4 # 5) (1 # 100000) = false /\
   st_iter converged_rotated + 1 = 1) /\
  update_residual (unconverged true) 1 1%Q converged_rotated =
  (Raise (ConvergenceError 1 (4 # 5)%Q), []).
Proof.
  split; [repeat split; reflexivity |].
  apply (@last_iteration_raises _ _ (unconverged true) 1 1%Q converged_rotated);
    reflexivity.
Defined.
